(** * pi-camera-go: segment store, capture monitor and live playlist

    A shallow embedding of the Go packages [server/storage],
    [server/recorder] and of [serveLivePlaylist] in [server/server.go],
    together with the properties of the specification that they decide.

    Go values are represented as follows.
    - [int], [int64] and [time.Duration] are integers of [Z]; where the
      source computes in a fixed width the wrap-around is written out
      ([wrap64]).
    - A Go [string] is a [string] (a sequence of bytes).
    - [map[SegmentID]Segment] is a [gmap Z Segment].
    - A function that returns [(value, error)] returns a [result];
      a call that can panic or block returns an [outcome].
    - What the operating system answers (directory listings, copies,
      subprocess exits, the clock) is an explicit argument. *)

From Stdlib Require Import ZArith Lia List Ascii String Bool.
From stdpp Require Import gmap strings list sorting.

Local Open Scope Z_scope.

(** ** Errors and results *)

Inductive error : Type :=
  | ErrSyntax                 (* strconv: invalid syntax *)
  | ErrRange                  (* strconv: value out of range *)
  | ErrInvalidName            (* "invalid segment file name" *)
  | ErrShortCopy              (* "could not copy entire file" *)
  | ErrOS (code : nat).       (* an error reported by the operating system *)

Inductive result (A : Type) : Type :=
  | Ok (a : A)
  | Err (e : error).
Arguments Ok {A} a.
Arguments Err {A} e.

(** What a method call does to the object of type [S] it is called on:
    it returns, leaving the object in a new state; it panics; or it waits
    for ever for a mutex that is held. *)
Inductive outcome (S A : Type) : Type :=
  | Returns (s : S) (a : A)
  | Panics (s : S)
  | Blocks.
Arguments Returns {S A} s a.
Arguments Panics {S A} s.
Arguments Blocks {S A}.

(** ** Machine integers *)

Module GoInt.

Definition maxInt : Z := 9223372036854775807.
Definition minInt : Z := -9223372036854775808.

Definition inRange (z : Z) : bool := (minInt <=? z) && (z <=? maxInt).

(** Two's complement wrap-around of a 64-bit signed operation. *)
Definition wrap64 (z : Z) : Z := (z + 2 ^ 63) mod 2 ^ 64 - 2 ^ 63.

(** Saturation, as [time.Time.Sub] does on overflow. *)
Definition saturate (z : Z) : Z :=
  if z <? minInt then minInt else if maxInt <? z then maxInt else z.

End GoInt.

(** ** The pieces of [strings], [strconv] and [fmt] that the sources use *)

Module GoStrings.

(** [strings.Split(s, sep)] for a separator of one byte, which is how
    the sources call it (["."] and ["_"]). *)
Fixpoint Split (sep : ascii) (s : string) : list string :=
  match s with
  | EmptyString => [EmptyString]
  | String c rest =>
      if Ascii.eqb c sep then EmptyString :: Split sep rest
      else match Split sep rest with
           | [] => [String c EmptyString]
           | p :: ps => String c p :: ps
           end
  end.

(** [strings.HasSuffix]: [s] ends with [suffix] when it is [suffix] or
    when what follows its first byte ends with [suffix]. *)
Fixpoint HasSuffix (s suffix : string) : bool :=
  String.eqb s suffix
  || match s with
     | EmptyString => false
     | String _ r => HasSuffix r suffix
     end.

Fixpoint dropBytes (n : nat) (s : string) : string :=
  match n, s with
  | O, _ => s
  | S n', String _ r => dropBytes n' r
  | S _, EmptyString => EmptyString
  end.

(** [strings.Replace(s, old, new, 1)]: the first occurrence only. *)
Fixpoint ReplaceFirst (s old new : string) : string :=
  if String.prefix old s then new +:+ dropBytes (String.length old) s
  else match s with
       | EmptyString => EmptyString
       | String c r => String c (ReplaceFirst r old new)
       end.

(** *** [strconv.Atoi] *)

Definition digitOf (c : ascii) : option Z :=
  let n := Z.of_N (N_of_ascii c) in
  if (48 <=? n) && (n <=? 57) then Some (n - 48) else None.

Fixpoint parseDigits (s : string) (acc : Z) : option Z :=
  match s with
  | EmptyString => Some acc
  | String c r =>
      match digitOf c with
      | Some d => parseDigits r (acc * 10 + d)
      | None => None
      end
  end.

(** An optional sign, then at least one decimal digit and nothing else;
    the value has to fit an [int]. *)
Definition Atoi (s : string) : result Z :=
  let '(neg, body) :=
    match s with
    | String "-"%char r => (true, r)
    | String "+"%char r => (false, r)
    | _ => (false, s)
    end in
  match body with
  | EmptyString => Err ErrSyntax
  | _ =>
      match parseDigits body 0 with
      | None => Err ErrSyntax
      | Some n =>
          let v := if neg then - n else n in
          if GoInt.inRange v then Ok v else Err ErrRange
      end
  end.

(** *** The verb [%d] of [fmt.Sprintf] *)

Definition digitChar (d : Z) : ascii := ascii_of_N (Z.to_N (48 + d)).

(** Digits are produced from the least significant one, by repeated
    division; [fuel] bounds the number of digits. *)
Fixpoint formatBits (fuel : nat) (n : Z) (acc : string) : string :=
  match fuel with
  | O => acc
  | S f =>
      let acc' := String (digitChar (n mod 10)) acc in
      if n <? 10 then acc' else formatBits f (n / 10) acc'
  end.

Definition formatUint (n : Z) : string :=
  formatBits (S (Z.to_nat (Z.log2 n))) n EmptyString.

Definition formatInt (n : Z) : string :=
  if n <? 0 then String "-"%char (formatUint (- n)) else formatUint n.

(** [%012d]: zero padding to twelve columns, the sign first. *)
Definition zeros (k : nat) : string := string_of_list_ascii (repeat "0"%char k).

Definition formatInt012 (n : Z) : string :=
  if n <? 0
  then let d := formatUint (- n) in
       String "-"%char (zeros (11 - String.length d) +:+ d)
  else let d := formatUint n in zeros (12 - String.length d) +:+ d.

End GoStrings.

(** ** Package [time] *)

Module GoTime.

(** A [time.Time] as the seconds since the Unix epoch and the
    nanoseconds within that second. *)
Record Time : Type := mkTime { unixSec : Z; nsec : Z }.

Definition Nanosecond : Z := 1.
Definition Millisecond : Z := 1000000.
Definition Second : Z := 1000000000.

(** [time.Unix(sec, 0)] *)
Definition Unix (sec : Z) : Time := mkTime sec 0.

(** [t.Sub(u)]: the difference as a [Duration], saturated when it
    does not fit. *)
Definition Sub (t u : Time) : Z :=
  GoInt.saturate ((unixSec t - unixSec u) * Second + (nsec t - nsec u)).

(** [t.Add(d)] *)
Definition Add (t : Time) (d : Z) : Time :=
  let n := nsec t + d in
  mkTime (unixSec t + n / Second) (n mod Second).

End GoTime.

(** ** Package [storage] *)

Module Storage.
Import GoStrings.

(** Modelled from the spec: the declarations of [SegmentID] and
    [Segment] (file [storage.go]) are not among the sources.  The
    specification calls [id] and [lastID] integers, so a [SegmentID] is
    an integer; the fields of [Segment] are the ones that the composite
    literals of [implementation.go] name. *)
Abbreviation SegmentID := Z (only parsing).

Record Segment : Type := mkSegment {
  ID : SegmentID;
  Name : string;
  Time : GoTime.Time;
  Duration : Z
}.

(** [mutex] is [true] while the [sync.Mutex] is held. *)
Record storageImpl : Type := mkStorage {
  segmentDir : string;
  segmentDirMaxSize : Z;
  segments : gmap Z Segment;
  lastSegmentID : SegmentID;
  mutex : bool
}.

(** [fmt.Sprintf("segment_%d_%d_%d.ts", t, d, id)] *)
Definition segmentName (t d id : Z) : string :=
  "segment_" +:+ formatInt t +:+ "_" +:+ formatInt d +:+ "_"
    +:+ formatInt id +:+ ".ts".

Definition segmentFromFileName (name : string) : result Segment :=
  let parts := Split "_"%char (hd EmptyString (Split "."%char name)) in
  if negb (length parts =? 4)%nat
     || negb (String.eqb (nth 0 parts EmptyString) "segment")
  then Err ErrInvalidName
  else
    match Atoi (nth 1 parts EmptyString) with
    | Err e => Err e
    | Ok segmentTime =>
        match Atoi (nth 2 parts EmptyString) with
        | Err e => Err e
        | Ok segmentDuration =>
            match Atoi (nth 3 parts EmptyString) with
            | Err e => Err e
            | Ok segmentID =>
                Ok {| ID := segmentID;
                      Name := name;
                      Time := GoTime.Unix segmentTime;
                      Duration := GoInt.wrap64 (segmentDuration * GoTime.Millisecond) |}
            end
        end
    end.

(** The body of the loop of [loadSegments] for one directory entry. *)
Definition loadStep (acc : gmap Z Segment * SegmentID) (name : string)
  : gmap Z Segment * SegmentID :=
  let '(segs, lastID) := acc in
  match segmentFromFileName name with
  | Ok segment =>
      (<[ID segment := segment]> segs,
       if ID segment >? lastID then ID segment else lastID)
  | Err _ => (segs, lastID)
  end.

(** [readDir] is what [ioutil.ReadDir(segmentDir)] answers: the names
    of the entries, sorted by name, or an error. *)
Definition loadSegments (readDir : result (list string))
  : result (gmap Z Segment * SegmentID) :=
  match readDir with
  | Err e => Err e
  | Ok files => Ok (fold_left loadStep files (∅, 0))
  end.

(** [configDir] is what [util.ConfigDir("segments")] answers. *)
Definition New (configDir : result string) (readDir : result (list string))
  : result storageImpl :=
  match configDir with
  | Err e => Err e
  | Ok dir =>
      match loadSegments readDir with
      | Err e => Err e
      | Ok (segs, lastID) =>
          Ok {| segmentDir := dir;
                segmentDirMaxSize := 1024 * 1024 * 1024;
                segments := segs;
                lastSegmentID := lastID + 1;
                mutex := false |}
      end
  end.

(** The loop of [LatestSegments]; [None] when [fuel] iterations did not
    reach the exit. *)
Fixpoint latestLoop (fuel : nat) (segs : gmap Z Segment)
    (lastID segmentID : SegmentID) (acc : list Segment)
  : option (list Segment) :=
  if segmentID <=? lastID then
    match fuel with
    | O => None
    | S f =>
        latestLoop f segs lastID (segmentID + 1)
          (match segs !! segmentID with
           | Some segment => acc ++ [segment]
           | None => acc
           end)
    end
  else Some acc.

(** [fuel] bounds the iterations of the loop.  [make] with a negative
    capacity panics, after the mutex has been taken and before anything
    releases it. *)
Definition LatestSegments (fuel : nat) (s : storageImpl) (count : Z)
  : option (outcome storageImpl (list Segment)) :=
  if mutex s then Some Blocks
  else
    let locked := {| segmentDir := segmentDir s;
                     segmentDirMaxSize := segmentDirMaxSize s;
                     segments := segments s;
                     lastSegmentID := lastSegmentID s;
                     mutex := true |} in
    if count <? 0 then Some (Panics locked)
    else
      match latestLoop fuel (segments s) (lastSegmentID s)
              (lastSegmentID s - count + 1) [] with
      | None => None
      | Some segs =>
          Some (Returns {| segmentDir := segmentDir s;
                           segmentDirMaxSize := segmentDirMaxSize s;
                           segments := segments s;
                           lastSegmentID := lastSegmentID s;
                           mutex := false |} segs)
      end.

(** What the operating system answers to one call of [addSegment]. *)
Record copyEnv : Type := mkCopyEnv {
  openErr : option error;        (* os.Open *)
  statSize : result Z;           (* inFile.Stat, then Size() *)
  createErr : option error;      (* os.Create *)
  copied : Z;                    (* io.Copy: bytes written *)
  copyErr : option error         (* io.Copy: error *)
}.

Definition addSegment (s : storageImpl) (created modified : GoTime.Time)
    (env : copyEnv) : outcome storageImpl (option error) :=
  match openErr env with
  | Some e => Returns s (Some e)
  | None =>
      match statSize env with
      | Err e => Returns s (Some e)
      | Ok size =>
          let segmentTime := created in
          let segmentDuration := GoTime.Sub modified created in
          let segmentID := lastSegmentID s + 1 in
          let segmentName :=
            segmentName (GoTime.unixSec segmentTime)
              (Z.quot segmentDuration GoTime.Millisecond) segmentID in
          match createErr env with
          | Some e => Returns s (Some e)
          | None =>
              match copyErr env with
              | Some e => Returns s (Some e)
              | None =>
                  if negb (copied env =? size) then Returns s (Some ErrShortCopy)
                  else if mutex s then Blocks
                  else
                    Returns {| segmentDir := segmentDir s;
                               segmentDirMaxSize := segmentDirMaxSize s;
                               segments :=
                                 <[segmentID :=
                                     {| ID := segmentID;
                                        Name := segmentName;
                                        Time := segmentTime;
                                        Duration := segmentDuration |}]>
                                   (segments s);
                               lastSegmentID := segmentID;
                               mutex := false |} None
              end
          end
      end
  end.

End Storage.

(** ** Package [recorder] *)

Module Recorder.
Import GoStrings.

(** [exec.Cmd]: the program and its arguments. *)
Record Cmd : Type := mkCmd { program : string; args : list string }.

(** The [context.CancelFunc] of the context a command runs under. *)
Inductive CancelFunc : Type := cancelOf (c : Cmd).

(** Modelled from the spec: the interface [Subscriber] (file
    [recorder.go]) is not among the sources; it is the single
    capability [VideoRecorded(path, createdAt, modifiedAt)].  A
    subscriber is named by a number and a call of its method is
    recorded in the trace. *)
Definition Subscriber : Type := nat.

Record recorderImpl : Type := mkRecorder {
  cancelFunc : option CancelFunc;
  cmd : option Cmd;
  recorderDir : string;
  segmentDuration : Z;
  width : Z;
  height : Z;
  bitRate : Z;
  subscribers : list Subscriber
}.

(** What the recorder does to the world around it, in order. *)
Inductive event : Type :=
  | EvMux (inPath outPath : string)            (* ffmpeg -i in -codec copy out *)
  | EvRemove (path : string)                   (* os.Remove *)
  | EvVideoRecorded (subscriber : Subscriber) (path : string)
      (created modified : GoTime.Time)
  | EvStartProcess (c : Cmd)                   (* cmd.Start *)
  | EvCancel (f : CancelFunc)                  (* cancelFunc() *)
  | EvWait (c : Cmd).                          (* cmd.Wait *)

(** The recorder, the paths of the files that exist, and the trace. *)
Record world : Type := mkWorld {
  rec : recorderImpl;
  files : gset string;
  trace : list event
}.

(** What the operating system answers. *)
Record osEnv : Type := mkOsEnv {
  readDirErr : option error;             (* ioutil.ReadDir fails *)
  ffmpegErr : string -> option error;    (* ffmpeg fails on this input *)
  removeErr : string -> option error;    (* os.Remove fails on this path *)
  now : string -> GoTime.Time;           (* time.Now() once this file is muxed *)
  startErr : option error;               (* cmd.Start fails *)
  waitErr : option error                 (* what cmd.Wait returns *)
}.

(** State and errors are threaded through the calls: a step changes
    the world and yields a value or an error. *)
Definition M (A : Type) : Type := world -> world * result A.

Definition ret {A} (a : A) : M A := fun w => (w, Ok a).
Definition fail {A} (e : error) : M A := fun w => (w, Err e).
Definition bind {A B} (m : M A) (k : A -> M B) : M B :=
  fun w => match m w with
           | (w', Ok a) => k a w'
           | (w', Err e) => (w', Err e)
           end.

Declare Scope rec_scope.
Delimit Scope rec_scope with rec.
Notation "x <- m ;; k" := (bind m (fun x => k))
  (at level 100, m at next level, right associativity) : rec_scope.
Notation "m ;;; k" := (bind m (fun _ => k))
  (at level 100, right associativity) : rec_scope.
Local Open Scope rec_scope.

Definition emit (e : event) : M unit :=
  fun w => ({| rec := rec w; files := files w; trace := trace w ++ [e] |}, Ok tt).

Definition getRecorder : M recorderImpl := fun w => (w, Ok (rec w)).

Definition setRecorder (r : recorderImpl) : M unit :=
  fun w => ({| rec := r; files := files w; trace := trace w |}, Ok tt).

(** [path.Join(dir, name)] for a clean directory and a plain name. *)
Definition pathJoin (dir name : string) : string := dir +:+ "/" +:+ name.

Fixpoint stripPrefix (p s : string) : option string :=
  match p with
  | EmptyString => Some s
  | String a p' =>
      match s with
      | String b s' => if Ascii.eqb a b then stripPrefix p' s' else None
      | EmptyString => None
      end
  end.

Fixpoint hasSlash (s : string) : bool :=
  match s with
  | EmptyString => false
  | String c r => Ascii.eqb c "/"%char || hasSlash r
  end.

(** The entry of [dir] that a path denotes, if it is directly in it. *)
Definition entryOf (dir path : string) : option string :=
  match stripPrefix (dir +:+ "/") path with
  | Some name => if hasSlash name || String.eqb name "" then None else Some name
  | None => None
  end.

(** [ioutil.ReadDir(dir)]: the names of the entries, sorted by name. *)
Definition ReadDir (env : osEnv) (dir : string) : M (list string) :=
  fun w =>
    match readDirErr env with
    | Some e => (w, Err e)
    | None => (w, Ok (merge_sort String.le (omap (entryOf dir) (elements (files w)))))
    end.

(** [os.Remove(path)]: fails when nothing is there. *)
Definition Remove (env : osEnv) (path : string) : M unit :=
  fun w =>
    if decide (path ∈ files w) then
      match removeErr env path with
      | Some e => (w, Err e)
      | None =>
          ({| rec := rec w; files := files w ∖ {[path]};
              trace := trace w ++ [EvRemove path] |}, Ok tt)
      end
    else (w, Err (ErrOS 2)).

(** [exec.Command("ffmpeg", "-i", inPath, "-codec", "copy", outPath).Run()]:
    when it succeeds the output file exists. *)
Definition ffmpeg (env : osEnv) (inPath outPath : string) : M unit :=
  fun w =>
    if decide (inPath ∈ files w) then
      match ffmpegErr env inPath with
      | Some e => (w, Err e)
      | None =>
          ({| rec := rec w; files := files w ∪ {[outPath]};
              trace := trace w ++ [EvMux inPath outPath] |}, Ok tt)
      end
    else (w, Err (ErrOS 1)).

(** [configDir] is what [util.ConfigDir("recorder")] answers. *)
Definition New (configDir : result string) : result recorderImpl :=
  match configDir with
  | Err e => Err e
  | Ok dir =>
      Ok {| cancelFunc := None;
            cmd := None;
            recorderDir := dir;
            segmentDuration := 5 * GoTime.Second;
            width := 640;
            height := 480;
            bitRate := 4000000;
            subscribers := [] |}
  end.

Definition muxFile (env : osEnv) (name : string) : M string :=
  r <- getRecorder ;;
  let inPath := pathJoin (recorderDir r) name in
  let newName := ReplaceFirst name ".h264" ".ts" in
  let outPath := pathJoin (recorderDir r) newName in
  ffmpeg env inPath outPath ;;;
  Remove env inPath ;;;
  ret outPath.

(** [for _, x := range xs { body }] where the body may return an error. *)
Fixpoint forEach {A} (xs : list A) (body : A -> M unit) : M unit :=
  match xs with
  | [] => ret tt
  | x :: rest => body x ;;; forEach rest body
  end.

Definition deleteFiles (env : osEnv) : M unit :=
  r <- getRecorder ;;
  files <- ReadDir env (recorderDir r) ;;
  forEach files (fun name =>
    if negb (HasSuffix name ".h264") then ret tt
    else Remove env (pathJoin (recorderDir r) name)).

(** [files[:filesLen-1]] *)
Definition allButLast {A} (l : list A) : list A := firstn (length l - 1) l.

Definition checkFiles (env : osEnv) : M unit :=
  r <- getRecorder ;;
  allFiles <- ReadDir env (recorderDir r) ;;
  let files := filter (fun name => HasSuffix name ".h264" = true) allFiles in
  let filesLen := length files in
  if (filesLen <? 2)%nat then ret tt
  else
    forEach (allButLast files) (fun name =>
      filePath <- muxFile env name ;;
      let created := now env filePath in
      let modified := GoTime.Add created (segmentDuration r) in
      forEach (subscribers r) (fun subscriber =>
        emit (EvVideoRecorded subscriber filePath created modified)) ;;;
      Remove env filePath).

(** [strconv.Itoa] *)
Definition Itoa (n : Z) : string := formatInt n.

(** [Start] leaves the loop of [checkFilesLoop] to run on its own. *)
Definition Start (env : osEnv) : M unit :=
  deleteFiles env ;;;
  r <- getRecorder ;;
  let segmentPath := pathJoin (recorderDir r) "segment%012d.h264" in
  let args := [ "--segment"; Itoa (Z.quot (segmentDuration r) GoTime.Millisecond);
                "--timeout"; "0";
                "--width"; Itoa (width r);
                "--height"; Itoa (height r);
                "-b"; Itoa (bitRate r);
                "-o"; segmentPath ] in
  let cmd := mkCmd "raspivid" args in
  let cancelFunc := cancelOf cmd in
  match startErr env with
  | Some e => fail e
  | None =>
      emit (EvStartProcess cmd) ;;;
      setRecorder {| cancelFunc := Some cancelFunc;
                     cmd := Some cmd;
                     recorderDir := recorderDir r;
                     segmentDuration := segmentDuration r;
                     width := width r;
                     height := height r;
                     bitRate := bitRate r;
                     subscribers := subscribers r |}
  end.

(** Calling a nil function value panics, and so does [Wait] on a nil
    [*exec.Cmd]; by then both fields have been set to nil. *)
Definition Stop (env : osEnv) (w : world) : outcome world (option error) :=
  let r := rec w in
  let '(cancelFunc0, cmd0) := (cancelFunc r, cmd r) in
  let r' := {| cancelFunc := None;
               cmd := None;
               recorderDir := recorderDir r;
               segmentDuration := segmentDuration r;
               width := width r;
               height := height r;
               bitRate := bitRate r;
               subscribers := subscribers r |} in
  match cancelFunc0 with
  | None => Panics {| rec := r'; files := files w; trace := trace w |}
  | Some f =>
      match cmd0 with
      | None =>
          Panics {| rec := r'; files := files w; trace := trace w ++ [EvCancel f] |}
      | Some c =>
          Returns {| rec := r'; files := files w;
                     trace := trace w ++ [EvCancel f; EvWait c] |}
                  (waitErr env)
      end
  end.

Definition SegmentDuration (r : recorderImpl) : Z := segmentDuration r.

Definition AddSubscriber (subscriber : Subscriber) (r : recorderImpl)
  : recorderImpl :=
  {| cancelFunc := cancelFunc r;
     cmd := cmd r;
     recorderDir := recorderDir r;
     segmentDuration := segmentDuration r;
     width := width r;
     height := height r;
     bitRate := bitRate r;
     subscribers := subscribers r ++ [subscriber] |}.

(** The name that [raspivid -o segment%012d.h264] gives chunk [n]. *)
Definition chunkName (n : Z) : string :=
  "segment" +:+ formatInt012 n +:+ ".h264".

End Recorder.

(** ** Package [server]: the live playlist *)

Module Server.
Import GoStrings Storage.

(** What the handler leaves in the [http.ResponseWriter]: the status,
    the content type and the strings written, in order.  The handler
    never calls [WriteHeader], so the status is the 200 that [net/http]
    sends with the first write. *)
Record response : Type := mkResponse {
  status : Z;
  contentType : string;
  body : list string
}.

Definition nl : string := String (ascii_of_nat 10) EmptyString.

Section Playlist.

(** The text that the verb [%f] gives for
    [float64(d) / float64(time.Second)]; floating point is not
    interpreted here. *)
Variable formatSeconds : Z -> string.

Definition discontinuityLine : string := "#EXT-X-DISCONTINUITY" +:+ nl.

Definition extinfLine (segment : Segment) : string :=
  "#EXTINF:" +:+ formatSeconds (Duration segment) +:+ "," +:+ nl.

Definition uriLine (segment : Segment) : string :=
  "segments/" +:+ Name segment +:+ nl.

Definition targetDurationLine (n : Z) : string :=
  "#EXT-X-TARGETDURATION:" +:+ formatInt n +:+ nl.

Definition mediaSequenceLine (id : SegmentID) : string :=
  "#EXT-X-MEDIA-SEQUENCE:" +:+ formatInt id +:+ nl.

(** The body of the first loop: the longest duration so far and the
    first id, where 0 stands for "not set yet". *)
Definition scanStep (acc : Z * SegmentID) (segment : Segment)
  : Z * SegmentID :=
  let '(targetDuration, firstSegmentID) := acc in
  (if Duration segment >? targetDuration then Duration segment
   else targetDuration,
   if firstSegmentID =? 0 then ID segment else firstSegmentID).

(** The second loop: what is written for the segments, given the id
    of the segment before. *)
Fixpoint writeSegments (prevSegmentID : SegmentID) (segs : list Segment)
  : list string :=
  match segs with
  | [] => []
  | segment :: rest =>
      (if negb (ID segment =? prevSegmentID + 1)
       then [discontinuityLine] else [])
      ++ [extinfLine segment; uriLine segment]
      ++ writeSegments (ID segment) rest
  end.

(** [serveLivePlaylist] once [LatestSegments] has answered. *)
Definition writePlaylist (segs : list Segment) (txt : bool) : response :=
  let '(targetDuration, firstSegmentID) := fold_left scanStep segs (0, 0) in
  let targetDurationInt := Z.quot targetDuration GoTime.Second in
  {| status := 200;
     contentType :=
       if txt then "text/plain" else "application/vnd.apple.mpegurl";
     body :=
       [ "#EXTM3U" +:+ nl;
         targetDurationLine targetDurationInt;
         mediaSequenceLine firstSegmentID ]
       ++ writeSegments (firstSegmentID - 1) segs |}.

(** [segmentDuration] is what [s.recorder.SegmentDuration()] answers;
    an integer division by zero panics. *)
Definition serveLivePlaylist (fuel : nat) (s : storageImpl)
    (segmentDuration : Z) (txt : bool)
  : option (outcome storageImpl response) :=
  if segmentDuration =? 0 then Some (Panics s)
  else
    let numSegments := Z.quot (10 * GoTime.Second) segmentDuration in
    let numSegments := if numSegments <? 3 then 3 else numSegments in
    match LatestSegments fuel s numSegments with
    | None => None
    | Some Blocks => Some Blocks
    | Some (Panics s') => Some (Panics s')
    | Some (Returns s' segs) => Some (Returns s' (writePlaylist segs txt))
    end.

End Playlist.

End Server.

(** ** The store as the subscriber of the recorder *)

Module Pipeline.

(** [storageImpl.VideoRecorded]: the segment is added; an error of
    [addSegment] is printed and not returned.  The value is what was
    printed. *)
Definition VideoRecorded (s : Storage.storageImpl)
    (created modified : GoTime.Time) (env : Storage.copyEnv)
  : outcome Storage.storageImpl (list error) :=
  match Storage.addSegment s created modified env with
  | Returns s' (Some e) => Returns s' [e]
  | Returns s' None => Returns s' []
  | Panics s' => Panics s'
  | Blocks => Blocks
  end.

(** [server.Start] registers the store with the recorder
    ([s.recorder.AddSubscriber(s.storage)]), so that every
    [subscriber.VideoRecorded(filePath, created, modified)] of the drain
    pass is a call of the store's method.  [deliver] makes the calls of a
    trace to the subscriber [subscriber] on the store, in order;
    [copyOf path] is what the operating system answers when the store
    copies the file at [path]. *)
Fixpoint deliver (subscriber : Recorder.Subscriber)
    (copyOf : string -> Storage.copyEnv) (s : Storage.storageImpl)
    (tr : list Recorder.event) : outcome Storage.storageImpl (list error) :=
  match tr with
  | [] => Returns s []
  | Recorder.EvVideoRecorded subscriber' path created modified :: rest =>
      if decide (subscriber' = subscriber) then
        match VideoRecorded s created modified (copyOf path) with
        | Returns s' printed =>
            match deliver subscriber copyOf s' rest with
            | Returns s'' printed' => Returns s'' (printed ++ printed')
            | Panics s'' => Panics s''
            | Blocks => Blocks
            end
        | Panics s' => Panics s'
        | Blocks => Blocks
        end
      else deliver subscriber copyOf s rest
  | _ :: rest => deliver subscriber copyOf s rest
  end.

End Pipeline.

(** * The vocabulary of the properties *)

(** [occurs c s]: the byte [c] occurs in [s]. *)
Fixpoint occurs (c : ascii) (s : string) : bool :=
  match s with
  | EmptyString => false
  | String x r => Ascii.eqb x c || occurs c r
  end.

Definition isDigit (c : ascii) : Prop :=
  exists d, 0 <= d <= 9 /\ c = GoStrings.digitChar d.

Fixpoint allDigits (s : string) : Prop :=
  match s with
  | EmptyString => True
  | String c r => isDigit c /\ allDigits r
  end.

(** The ids of the directory entries that parse, in directory order. *)
Definition parsedIDs (files : list string) : list Z :=
  omap (fun name =>
          match Storage.segmentFromFileName name with
          | Ok segment => Some (Storage.ID segment)
          | Err _ => None
          end) files.

(** The specification's [lastID] of a directory: "max id across parsed
    entries, or 0 if none". *)
Definition spec_lastID (files : list string) : Z :=
  match parsedIDs files with
  | [] => 0
  | id :: ids => foldr Z.max id ids
  end.

(** Every segment of the index is filed under its own id. *)
Definition keyed (s : Storage.storageImpl) : Prop :=
  forall id segment,
    Storage.segments s !! id = Some segment -> Storage.ID segment = id.

(** The store that [addSegment] leaves when it has indexed the file. *)
Definition indexed (s : Storage.storageImpl) (created modified : GoTime.Time)
  : Storage.storageImpl :=
  let segmentID := Storage.lastSegmentID s + 1 in
  {| Storage.segmentDir := Storage.segmentDir s;
     Storage.segmentDirMaxSize := Storage.segmentDirMaxSize s;
     Storage.segments :=
       <[segmentID :=
           {| Storage.ID := segmentID;
              Storage.Name := Storage.segmentName (GoTime.unixSec created)
                        (Z.quot (GoTime.Sub modified created) GoTime.Millisecond)
                        segmentID;
              Storage.Time := created;
              Storage.Duration := GoTime.Sub modified created |}]> (Storage.segments s);
     Storage.lastSegmentID := segmentID;
     Storage.mutex := false |}.

(** The copy was complete: no call failed and as many bytes were written
    as the source file has. *)
Definition complete (env : Storage.copyEnv) : Prop :=
  Storage.openErr env = None /\ Storage.createErr env = None /\ Storage.copyErr env = None
  /\ Storage.statSize env = Ok (Storage.copied env).

(** One call of [addSegment]: its arguments and what the operating
    system answers to it. *)
Record call : Type := mkCall {
  callCreated : GoTime.Time;
  callModified : GoTime.Time;
  callEnv : Storage.copyEnv
}.

(** A sequence of calls of [addSegment] on one store, one after the
    other: what each call returned and the store it left.  The sequence
    ends early at a call that does not return. *)
Fixpoint addSegments (s : Storage.storageImpl) (calls : list call)
  : list (option error * Storage.storageImpl) :=
  match calls with
  | [] => []
  | c :: rest =>
      match Storage.addSegment s (callCreated c) (callModified c) (callEnv c) with
      | Returns s' r => (r, s') :: addSegments s' rest
      | _ => []
      end
  end.

(** The id that a call which returned [nil] assigned: the one it left
    in [lastSegmentID]. *)
Definition assignedIDs (run : list (option error * Storage.storageImpl)) : list Z :=
  omap (fun x => match fst x with
                 | None => Some (Storage.lastSegmentID (snd x))
                 | Some _ => None
                 end) run.

(** ** Concrete stores *)

(** A five second segment with the given id. *)
Definition exampleSegment (id : Z) : Storage.Segment :=
  {| Storage.ID := id;
     Storage.Name := Storage.segmentName (1540000000 + 5 * id) 5000 id;
     Storage.Time := GoTime.Unix (1540000000 + 5 * id);
     Storage.Duration := 5 * GoTime.Second |}.

(** The store that holds the segments of the given ids. *)
Definition storeOf (ids : list Z) (lastID : Z) : Storage.storageImpl :=
  {| Storage.segmentDir := "/home/pi/.pi-camera-go/segments";
     Storage.segmentDirMaxSize := 1024 * 1024 * 1024;
     Storage.segments := list_to_map ((fun id => (id, exampleSegment id)) <$> ids);
     Storage.lastSegmentID := lastID;
     Storage.mutex := false |}.

(** A call of [addSegment] on a file of [size] bytes of which [n] get
    copied. *)
Definition copyCall (sec : Z) (size n : Z) : call :=
  {| callCreated := GoTime.mkTime sec 0;
     callModified := GoTime.mkTime (sec + 5) 0;
     callEnv := {| Storage.openErr := None;
                   Storage.statSize := Ok size;
                   Storage.createErr := None;
                   Storage.copied := n;
                   Storage.copyErr := None |} |}.

(** ** The vocabulary of the drain pass *)

(** The name of the converted file of a raw chunk. *)
Definition convertedName (name : string) : string :=
  GoStrings.ReplaceFirst name ".h264" ".ts".

(** The raw chunks of a directory listing. *)
Definition rawChunks (listing : list string) : list string :=
  filter (fun name => GoStrings.HasSuffix name ".h264" = true) listing.

(** What a drain pass does with one raw chunk when nothing fails: it
    converts it, removes it, hands the converted file to every subscriber
    and removes the converted file. *)
Definition drainEvents (r : Recorder.recorderImpl) (env : Recorder.osEnv)
    (name : string) : list Recorder.event :=
  let inPath := Recorder.pathJoin (Recorder.recorderDir r) name in
  let outPath := Recorder.pathJoin (Recorder.recorderDir r) (convertedName name) in
  [Recorder.EvMux inPath outPath; Recorder.EvRemove inPath]
  ++ ((fun subscriber =>
         Recorder.EvVideoRecorded subscriber outPath (Recorder.now env outPath)
           (GoTime.Add (Recorder.now env outPath) (Recorder.segmentDuration r)))
        <$> Recorder.subscribers r)
  ++ [Recorder.EvRemove outPath].

(** The operating system lets the drain pass convert and remove [name]. *)
Definition drainable (r : Recorder.recorderImpl) (env : Recorder.osEnv)
    (name : string) : Prop :=
  let inPath := Recorder.pathJoin (Recorder.recorderDir r) name in
  let outPath := Recorder.pathJoin (Recorder.recorderDir r) (convertedName name) in
  Recorder.ffmpegErr env inPath = None
  /\ Recorder.removeErr env inPath = None
  /\ Recorder.removeErr env outPath = None.

(** The files that a drain pass removes on account of the given chunks:
    the chunks and their converted files. *)
Definition removedBy (r : Recorder.recorderImpl) (chunks : list string) : gset string :=
  list_to_set (Recorder.pathJoin (Recorder.recorderDir r) <$> chunks)
  ∪ list_to_set ((fun name => Recorder.pathJoin (Recorder.recorderDir r)
                                (convertedName name)) <$> chunks).

(** An operating system in which nothing fails. *)
Definition calmEnv : Recorder.osEnv :=
  {| Recorder.readDirErr := None;
     Recorder.ffmpegErr := fun _ => None;
     Recorder.removeErr := fun _ => None;
     Recorder.now := fun _ => GoTime.mkTime 1540000000 0;
     Recorder.startErr := None;
     Recorder.waitErr := None |}.

(** The recorder that [New] builds, with one subscriber, in a working
    directory that holds the given entries. *)
Definition exampleRecorder : Recorder.recorderImpl :=
  {| Recorder.cancelFunc := None;
     Recorder.cmd := None;
     Recorder.recorderDir := "/home/pi/.pi-camera-go/recorder";
     Recorder.segmentDuration := 5 * GoTime.Second;
     Recorder.width := 640;
     Recorder.height := 480;
     Recorder.bitRate := 4000000;
     Recorder.subscribers := [0%nat] |}.

Definition worldOf (names : list string) : Recorder.world :=
  {| Recorder.rec := exampleRecorder;
     Recorder.files :=
       list_to_set (Recorder.pathJoin (Recorder.recorderDir exampleRecorder) <$> names);
     Recorder.trace := [] |}.

(** ** The vocabulary of the playlist *)


(** The [firstSegmentID] that the first loop of [serveLivePlaylist]
    leaves: the id of the first segment whose id is not 0, and 0 when
    there is none. *)
Fixpoint firstNonZeroID (segs : list Storage.Segment) : Z :=
  match segs with
  | [] => 0
  | segment :: rest =>
      if Storage.ID segment =? 0 then firstNonZeroID rest else Storage.ID segment
  end.

(** The entry of a segment in the playlist, given the id before it: a
    discontinuity marker when the id is not the one after [prev], then
    the duration and the name. *)
Definition entry (formatSeconds : Z -> string) (prev : Z)
    (segment : Storage.Segment) : list string :=
  (if decide (Storage.ID segment = prev + 1) then []
   else [Server.discontinuityLine])
  ++ [Server.extinfLine formatSeconds segment; Server.uriLine segment].

(** The entries of segments that follow one another without a gap. *)
Definition plainEntries (formatSeconds : Z -> string)
    (segs : list Storage.Segment) : list string :=
  flat_map (fun segment =>
              [Server.extinfLine formatSeconds segment; Server.uriLine segment])
    segs.

(** The number of discontinuity markers among some lines. *)
Definition markers (lines : list string) : nat :=
  length (filter (fun line => line = Server.discontinuityLine) lines).

(** A rendering of seconds to stand for [%f] in concrete playlists:
    whole seconds, a dot, and six digits of microseconds. *)
Definition sixDecimals (d : Z) : string :=
  let micro := Z.quot d 1000 in
  let frac := GoStrings.formatUint (Z.abs (Z.rem micro 1000000)) in
  GoStrings.formatInt (Z.quot micro 1000000) +:+ "."
    +:+ GoStrings.zeros (6 - String.length frac) +:+ frac.

(** ** The vocabulary of the invariants of the store *)

(** The directory entry parses under the naming convention. *)
Definition parses (name : string) : Prop :=
  exists segment, Storage.segmentFromFileName name = Ok segment.

#[export] Instance parses_dec name : Decision (parses name).
Proof.
  unfold parses. destruct (Storage.segmentFromFileName name) as [sg|e].
  - left. by exists sg.
  - right. by intros [sg ?].
Defined.

(** The segments of the directory entries that parse, in directory order. *)
Definition parsedSegments (files : list string) : list Storage.Segment :=
  omap (fun name =>
          match Storage.segmentFromFileName name with
          | Ok segment => Some segment
          | Err _ => None
          end) files.

(** No id of the index is above [lastSegmentID]. *)
Definition bounded (s : Storage.storageImpl) : Prop :=
  forall id segment,
    Storage.segments s !! id = Some segment -> id <= Storage.lastSegmentID s.

(** The state of a store between calls: the mutex is free, every segment
    is filed under its own id and no id is above [lastSegmentID]. *)
Definition wellFormed (s : Storage.storageImpl) : Prop :=
  Storage.mutex s = false /\ keyed s /\ bounded s.

(** ** The vocabulary of further properties of the playlist *)

(** The number of places in a sequence of ids where the next id is not
    the id plus one. *)
Fixpoint gaps (ids : list Z) : nat :=
  match ids with
  | [] => 0%nat
  | a :: rest =>
      match rest with
      | [] => 0%nat
      | b :: _ => ((if decide (b = a + 1)%Z then 0 else 1) + gaps rest)%nat
      end
  end.

(** The store that a sequence of calls of [addSegment] leaves. *)
Definition lastStore (s : Storage.storageImpl)
    (run : list (option error * Storage.storageImpl)) : Storage.storageImpl :=
  default s (snd <$> last run).

(** ** The vocabulary of further properties of the capture monitor *)

(** The number of capture processes launched, and the number cancelled,
    in a trace. *)
Definition isLaunch (e : Recorder.event) : bool :=
  match e with Recorder.EvStartProcess _ => true | _ => false end.

Definition isCancel (e : Recorder.event) : bool :=
  match e with Recorder.EvCancel _ => true | _ => false end.

Definition launches (tr : list Recorder.event) : nat :=
  length (filter (fun e => isLaunch e = true) tr).

Definition cancellations (tr : list Recorder.event) : nat :=
  length (filter (fun e => isCancel e = true) tr).

(** An operating system in which the conversion of one file fails and
    nothing else does. *)
Definition failingEnv (path : string) : Recorder.osEnv :=
  {| Recorder.readDirErr := None;
     Recorder.ffmpegErr := fun p => if String.eqb p path then Some (ErrOS 1) else None;
     Recorder.removeErr := fun _ => None;
     Recorder.now := fun _ => GoTime.mkTime 1540000000 0;
     Recorder.startErr := None;
     Recorder.waitErr := None |}.

(** ** The vocabulary of the path from the recorder to the store *)

(** The segment that the store indexes for a raw chunk that the drain
    pass has converted, when it assigns it the id [id]. *)
Definition recorded (r : Recorder.recorderImpl) (env : Recorder.osEnv)
    (name : string) (id : Z) : Storage.Segment :=
  let outPath := Recorder.pathJoin (Recorder.recorderDir r) (convertedName name) in
  {| Storage.ID := id;
     Storage.Name :=
       Storage.segmentName (GoTime.unixSec (Recorder.now env outPath))
         (Z.quot (Recorder.segmentDuration r) GoTime.Millisecond) id;
     Storage.Time := Recorder.now env outPath;
     Storage.Duration := Recorder.segmentDuration r |}.

(** The store after it has indexed the given converted chunks, one after
    the other. *)
Definition indexedChunks (r : Recorder.recorderImpl) (env : Recorder.osEnv)
    (s : Storage.storageImpl) (chunks : list string) : Storage.storageImpl :=
  fold_left (fun s name =>
               let outPath :=
                 Recorder.pathJoin (Recorder.recorderDir r) (convertedName name) in
               indexed s (Recorder.now env outPath)
                 (GoTime.Add (Recorder.now env outPath) (Recorder.segmentDuration r)))
    chunks s.

(** Every copy is complete. *)
Definition completeCopies : string -> Storage.copyEnv :=
  fun _ => {| Storage.openErr := None;
              Storage.statSize := Ok 188000;
              Storage.createErr := None;
              Storage.copied := 188000;
              Storage.copyErr := None |}.

(** ** The vocabulary of a restart *)

(** The names of the files of the indexed segments. *)
Definition segmentFiles (s : Storage.storageImpl) : gset string :=
  map_to_set (fun (_ : Z) segment => Storage.Name segment) (Storage.segments s).

(** The segments are named as [addSegment] names them, after the seconds
    of their time, the milliseconds of their duration and their id, and
    these are values of their Go types. *)
Definition canonical (s : Storage.storageImpl) : Prop :=
  forall id segment,
    Storage.segments s !! id = Some segment ->
    Storage.ID segment = id
    /\ Storage.Name segment
       = Storage.segmentName (GoTime.unixSec (Storage.Time segment))
           (Z.quot (Storage.Duration segment) GoTime.Millisecond) id
    /\ GoInt.inRange (GoTime.unixSec (Storage.Time segment)) = true
    /\ GoInt.inRange id = true
    /\ GoInt.inRange (Storage.Duration segment) = true.

(** What the name of a segment keeps of it: the id, the whole seconds of
    the time and the whole milliseconds of the duration. *)
Definition reloaded (segment : Storage.Segment) : Storage.Segment :=
  {| Storage.ID := Storage.ID segment;
     Storage.Name := Storage.Name segment;
     Storage.Time := GoTime.Unix (GoTime.unixSec (Storage.Time segment));
     Storage.Duration :=
       Z.quot (Storage.Duration segment) GoTime.Millisecond * GoTime.Millisecond |}.

(** * Properties *)

(** ** Strings *)

Section StringFacts.
Import GoStrings.

Lemma app_cons c s r : String c s +:+ r = String c (s +:+ r).
Proof. reflexivity. Qed.

Lemma app_empty_l r : "" +:+ r = r.
Proof. reflexivity. Qed.

Lemma app_empty_r s : s +:+ "" = s.
Proof. induction s as [|c s IH]; [done|]. by rewrite app_cons, IH. Qed.

Lemma app_assoc_s a b c : (a +:+ b) +:+ c = a +:+ (b +:+ c).
Proof. induction a as [|x a IH]; [done|]. by rewrite !app_cons, IH. Qed.

Lemma occurs_cons c x r : occurs c (String x r) = Ascii.eqb x c || occurs c r.
Proof. reflexivity. Qed.

Lemma occurs_app c a b : occurs c (a +:+ b) = occurs c a || occurs c b.
Proof.
  induction a as [|x a IH]; [done|].
  rewrite app_cons. simpl. rewrite IH. by rewrite orb_assoc.
Qed.

Lemma Split_not_nil sep s : Split sep s <> [].
Proof.
  destruct s as [|c s]; simpl; [done|].
  destruct (Ascii.eqb c sep); [done|]. by destruct (Split sep s).
Qed.

(** A prefix without the separator stays in the first part. *)
Lemma Split_app sep a r :
  occurs sep a = false ->
  Split sep (a +:+ r) =
    (a +:+ hd "" (Split sep r)) :: tl (Split sep r).
Proof.
  induction a as [|x a IH]; intros H.
  - rewrite !app_empty_l. pose proof (Split_not_nil sep r).
    by destruct (Split sep r).
  - simpl in H. apply orb_false_iff in H as [Hx Ha].
    rewrite app_cons. simpl. rewrite Hx, (IH Ha). by rewrite app_cons.
Qed.

Lemma Split_none sep a : occurs sep a = false -> Split sep a = [a].
Proof.
  intros H. rewrite <- (app_empty_r a) at 1.
  rewrite (Split_app _ _ _ H). simpl. by rewrite app_empty_r.
Qed.

Lemma Split_sep sep a r :
  occurs sep a = false ->
  Split sep (a +:+ String sep r) = a :: Split sep r.
Proof.
  intros H. rewrite (Split_app _ _ _ H). simpl.
  rewrite Ascii.eqb_refl. simpl. by rewrite app_empty_r.
Qed.

(** *** Decimal digits *)

Ltac digit_cases d H :=
  assert (d = 0 \/ d = 1 \/ d = 2 \/ d = 3 \/ d = 4 \/ d = 5 \/ d = 6
          \/ d = 7 \/ d = 8 \/ d = 9) as H by lia;
  repeat destruct H as [H|H]; subst d.

Lemma digitOf_digitChar d : 0 <= d <= 9 -> digitOf (digitChar d) = Some d.
Proof. intros Hd. digit_cases d H; reflexivity. Qed.

Lemma digit_not c x :
  isDigit x -> digitOf c = None -> Ascii.eqb x c = false.
Proof.
  intros (d & Hd & ->) Hc. destruct (Ascii.eqb_spec (digitChar d) c) as [<-|]; [|done].
  rewrite digitOf_digitChar in Hc by done. discriminate.
Qed.

Lemma allDigits_occurs c s :
  digitOf c = None -> allDigits s -> occurs c s = false.
Proof.
  intros Hc. induction s as [|x s IH]; simpl; [done|].
  intros [Hx Hs]. by rewrite (digit_not _ _ Hx Hc), IH.
Qed.

Lemma mod10_digit n : isDigit (digitChar (n mod 10)).
Proof. exists (n mod 10). split; [|done]. pose proof (Z.mod_pos_bound n 10). lia. Qed.

Lemma formatBits_allDigits fuel n acc :
  allDigits acc -> allDigits (formatBits fuel n acc).
Proof.
  revert n acc. induction fuel as [|f IH]; intros n acc Hacc; simpl; [done|].
  destruct (n <? 10).
  - split; [apply mod10_digit | done].
  - apply IH. split; [apply mod10_digit | done].
Qed.

Lemma formatUint_allDigits n : allDigits (formatUint n).
Proof. by apply formatBits_allDigits. Qed.

(** The digits are never empty. *)
Lemma formatBits_cons f n acc :
  exists c r, isDigit c /\ formatBits (S f) n acc = String c r.
Proof.
  revert n acc. induction f as [|f IH]; intros n acc.
  - simpl. destruct (n <? 10); eexists _, _; (split; [apply mod10_digit | done]).
  - change (formatBits (S (S f)) n acc)
      with (let acc' := String (digitChar (n mod 10)) acc in
            if n <? 10 then acc' else formatBits (S f) (n / 10) acc').
    simpl. destruct (n <? 10).
    + eexists _, _. split; [apply mod10_digit | done].
    + apply IH.
Qed.

Lemma formatUint_cons n : exists c r, isDigit c /\ formatUint n = String c r.
Proof. apply formatBits_cons. Qed.

(** Reading the digits back gives the number. *)
Lemma parseDigits_formatBits fuel n acc :
  0 <= n < 2 ^ Z.of_nat fuel ->
  parseDigits (formatBits fuel n acc) 0 = parseDigits acc n.
Proof.
  revert n acc. induction fuel as [|f IH]; intros n acc Hn.
  - simpl in *. by replace n with 0 by lia.
  - simpl formatBits. pose proof (Z.mod_pos_bound n 10 ltac:(lia)) as Hm.
    destruct (Z.ltb_spec n 10) as [Hlt|Hge].
    + simpl. rewrite digitOf_digitChar by lia.
      rewrite Z.mod_small by lia. done.
    + rewrite IH.
      * simpl. rewrite digitOf_digitChar by lia.
        f_equal. pose proof (Z.div_mod n 10 ltac:(lia)). lia.
      * rewrite Nat2Z.inj_succ, Z.pow_succ_r in Hn by lia.
        split; [apply Z.div_pos; lia|].
        apply Z.div_lt_upper_bound; lia.
Qed.

Lemma parseDigits_formatUint n : 0 <= n -> parseDigits (formatUint n) 0 = Some n.
Proof.
  intros Hn. unfold formatUint. rewrite parseDigits_formatBits; [done|].
  split; [done|].
  destruct (Z.eq_dec n 0) as [->|Hz]; [done|].
  rewrite Nat2Z.inj_succ, Z2Nat.id by apply Z.log2_nonneg.
  apply Z.log2_spec. lia.
Qed.

Lemma Atoi_digits c r :
  isDigit c ->
  Atoi (String c r) =
    match parseDigits (String c r) 0 with
    | None => Err ErrSyntax
    | Some n => if GoInt.inRange n then Ok n else Err ErrRange
    end.
Proof. intros (d & Hd & ->). digit_cases d H; reflexivity. Qed.

(** What [Atoi] makes of the text of [%d], for any integer: the number
    itself, or an error when the number does not fit an [int]. *)
Lemma Atoi_formatInt v :
  Atoi (formatInt v) = if GoInt.inRange v then Ok v else Err ErrRange.
Proof.
  unfold formatInt. destruct (Z.ltb_spec v 0) as [Hneg|Hpos].
  - destruct (formatUint_cons (- v)) as (c & r & Hc & E).
    unfold Atoi. rewrite E. rewrite <- E.
    rewrite parseDigits_formatUint by lia. by rewrite Z.opp_involutive.
  - destruct (formatUint_cons v) as (c & r & Hc & E).
    rewrite E, Atoi_digits by done. rewrite <- E.
    by rewrite parseDigits_formatUint.
Qed.

Lemma formatInt_occurs c v :
  digitOf c = None -> c <> "-"%char -> occurs c (formatInt v) = false.
Proof.
  intros Hc Hm. unfold formatInt. destruct (v <? 0).
  - rewrite occurs_cons.
    rewrite allDigits_occurs by auto using formatUint_allDigits.
    rewrite orb_false_r. apply Ascii.eqb_neq. congruence.
  - apply allDigits_occurs; auto using formatUint_allDigits.
Qed.

End StringFacts.

(** ** Segment file names *)

Section NameFacts.
Import GoStrings Storage.

Lemma underscore_not_digit : digitOf "_"%char = None.
Proof. reflexivity. Qed.

Lemma dot_not_digit : digitOf "."%char = None.
Proof. reflexivity. Qed.

Lemma formatInt_no_underscore v : occurs "_"%char (formatInt v) = false.
Proof. by apply formatInt_occurs. Qed.

Lemma formatInt_no_dot v : occurs "."%char (formatInt v) = false.
Proof. by apply formatInt_occurs. Qed.

(** The part of a canonical name before its first dot. *)
Lemma segmentName_stem t d id :
  hd "" (Split "."%char (segmentName t d id)) =
  "segment_" +:+ formatInt t +:+ "_" +:+ formatInt d +:+ "_" +:+ formatInt id.
Proof.
  unfold segmentName.
  replace ("segment_" +:+ formatInt t +:+ "_" +:+ formatInt d +:+ "_"
             +:+ formatInt id +:+ ".ts")
    with (("segment_" +:+ formatInt t +:+ "_" +:+ formatInt d +:+ "_"
             +:+ formatInt id) +:+ String "."%char "ts")
    by (by rewrite !app_assoc_s).
  rewrite Split_sep; [done|].
  rewrite !occurs_app, !formatInt_no_dot. reflexivity.
Qed.

(** The four parts of the stem. *)
Lemma segmentName_parts t d id :
  Split "_"%char (hd "" (Split "."%char (segmentName t d id))) =
  ["segment"; formatInt t; formatInt d; formatInt id].
Proof.
  rewrite segmentName_stem.
  change ("segment_" +:+ formatInt t +:+ "_" +:+ formatInt d +:+ "_"
            +:+ formatInt id)
    with ("segment" +:+ String "_"%char
            (formatInt t +:+ String "_"%char
               (formatInt d +:+ String "_"%char (formatInt id)))).
  rewrite Split_sep by reflexivity.
  rewrite !Split_sep by apply formatInt_no_underscore.
  by rewrite Split_none by apply formatInt_no_underscore.
Qed.

(** What the parser makes of a canonical name, for any three integers. *)
Lemma segmentFromFileName_segmentName t d id :
  segmentFromFileName (segmentName t d id) =
  if GoInt.inRange t && GoInt.inRange d && GoInt.inRange id
  then Ok {| ID := id;
             Name := segmentName t d id;
             Time := GoTime.Unix t;
             Duration := GoInt.wrap64 (d * GoTime.Millisecond) |}
  else Err ErrRange.
Proof.
  unfold segmentFromFileName. rewrite segmentName_parts.
  cbn [length Nat.eqb negb nth orb String.eqb].
  change (("segment" =? "segment")%string) with true. cbn [negb orb].
  rewrite !Atoi_formatInt.
  destruct (GoInt.inRange t); [|done].
  destruct (GoInt.inRange d); [|done].
  by destruct (GoInt.inRange id).
Qed.

Lemma inRange_true z :
  GoInt.inRange z = true <-> GoInt.minInt <= z <= GoInt.maxInt.
Proof. unfold GoInt.inRange. rewrite andb_true_iff, !Z.leb_le. tauto. Qed.

Lemma wrap64_id z :
  GoInt.minInt <= z <= GoInt.maxInt -> GoInt.wrap64 z = z.
Proof.
  unfold GoInt.wrap64, GoInt.minInt, GoInt.maxInt. intros H.
  rewrite Z.mod_small; lia.
Qed.

End NameFacts.

(** C6.  Round trip of the segment file name: for seconds [t], a number of
    milliseconds [d] and an id [id] that are not negative (and that are
    values of their Go types: [t] and [id] fit an [int], [d] is the
    milliseconds of a [time.Duration]), parsing the name built from them
    succeeds and gives back the id [id], the time [t] seconds and the
    duration [d] milliseconds. *)
Theorem segment_name_round_trip (t d id : Z) :
  0 <= t <= GoInt.maxInt ->
  0 <= d <= GoInt.maxInt / GoTime.Millisecond ->
  0 <= id <= GoInt.maxInt ->
  exists segment,
    Storage.segmentFromFileName (Storage.segmentName t d id) = Ok segment
    /\ GoTime.unixSec (Storage.Time segment) = t
    /\ Z.quot (Storage.Duration segment) GoTime.Millisecond = d
    /\ Storage.ID segment = id
    /\ Storage.Name segment = Storage.segmentName t d id.
Proof.
  intros Ht Hd Hid.
  assert (d * GoTime.Millisecond <= GoInt.maxInt) as Hdm.
  { unfold GoTime.Millisecond, GoInt.maxInt in *.
    change (9223372036854775807 / 1000000) with 9223372036854 in Hd. lia. }
  rewrite segmentFromFileName_segmentName.
  assert (GoInt.inRange t = true) as -> by (apply inRange_true; unfold GoInt.minInt; lia).
  assert (GoInt.inRange d = true) as ->.
  { apply inRange_true. unfold GoInt.minInt, GoTime.Millisecond in *. lia. }
  assert (GoInt.inRange id = true) as -> by (apply inRange_true; unfold GoInt.minInt; lia).
  eexists. split; [reflexivity|]. cbn [Storage.Time Storage.Duration Storage.ID Storage.Name].
  repeat split.
  rewrite wrap64_id by (unfold GoInt.minInt, GoTime.Millisecond in *; lia).
  unfold GoTime.Millisecond. rewrite Z.quot_mul; lia.
Qed.

Lemma segment_name_round_trip_witness :
  exists segment,
    Storage.segmentFromFileName
      (Storage.segmentName 1540000000 5000 42) = Ok segment
    /\ GoTime.unixSec (Storage.Time segment) = 1540000000
    /\ Z.quot (Storage.Duration segment) GoTime.Millisecond = 5000
    /\ Storage.ID segment = 42
    /\ Storage.Name segment = Storage.segmentName 1540000000 5000 42.
Proof.
  apply (segment_name_round_trip 1540000000 5000 42); vm_compute; split; discriminate.
Defined.

(** ** The segment store *)

Section StoreFacts.
Import Storage.

Lemma omap_cons {A B} (f : A -> option B) (x : A) (l : list A) :
  omap f (x :: l) =
  match f x with
  | Some y => y :: omap f l
  | None => omap f l
  end.
Proof. reflexivity. Qed.

Lemma latestLoop_unfold fuel segs lastID segmentID acc :
  latestLoop fuel segs lastID segmentID acc =
  if segmentID <=? lastID then
    match fuel with
    | O => None
    | S f =>
        latestLoop f segs lastID (segmentID + 1)
          (match segs !! segmentID with
           | Some segment => acc ++ [segment]
           | None => acc
           end)
    end
  else Some acc.
Proof. by destruct fuel. Qed.

(** With as many iterations as the range has ids, the loop ends, and it
    has collected the segments filed under the ids of the range, in the
    order of the ids. *)
Lemma latestLoop_enough fuel segs lastID segmentID acc :
  (Z.to_nat (lastID - segmentID + 1) <= fuel)%nat ->
  latestLoop fuel segs lastID segmentID acc =
  Some (acc ++ omap (fun id => segs !! id)
                 (seqZ segmentID (lastID - segmentID + 1))).
Proof.
  revert segmentID acc.
  induction fuel as [|f IH]; intros lo acc Hfuel; rewrite latestLoop_unfold.
  - destruct (Z.leb_spec lo lastID) as [Hle|Hgt]; [lia|].
    rewrite seqZ_nil by lia. by rewrite app_nil_r.
  - destruct (Z.leb_spec lo lastID) as [Hle|Hgt].
    + rewrite IH by lia. rewrite (seqZ_cons lo) by lia.
      replace (Z.pred (lastID - lo + 1)) with (lastID - (lo + 1) + 1) by lia.
      replace (Z.succ lo) with (lo + 1) by lia.
      rewrite omap_cons. destruct (segs !! lo) as [seg|]; [|done].
      by rewrite <- app_assoc.
    + rewrite seqZ_nil by lia. by rewrite app_nil_r.
Qed.

Lemma omap_length_le {A B} (f : A -> option B) (l : list A) :
  (length (omap f l) <= length l)%nat.
Proof.
  induction l as [|x l IH]; [done|].
  rewrite omap_cons. destruct (f x); simpl; lia.
Qed.

(** In a store that files every segment under its own id, the ids
    collected over a list of keys are the keys that are present. *)
Lemma keyed_ids (segs : gmap Z Segment) (l : list Z) :
  (forall id segment, segs !! id = Some segment -> ID segment = id) ->
  ID <$> omap (fun id => segs !! id) l =
  filter (fun id => is_Some (segs !! id)) l.
Proof.
  intros Hk. induction l as [|i l IH]; [done|].
  rewrite omap_cons, filter_cons.
  destruct (segs !! i) as [seg|] eqn:E.
  - rewrite decide_True by eauto. cbn. by rewrite (Hk _ _ E), IH.
  - rewrite decide_False by (by intros [? ?]). done.
Qed.

Lemma seqZ_sorted m n : StronglySorted Z.lt (seqZ m n).
Proof.
  destruct (Z.le_gt_cases n 0) as [Hn|Hn].
  { rewrite seqZ_nil by done. constructor. }
  rewrite <- (Z2Nat.id n) by lia. generalize (Z.to_nat n) as k. clear.
  intros k. revert m. induction k as [|k IH]; intros m.
  - rewrite seqZ_nil by done. constructor.
  - rewrite seqZ_cons by lia.
    replace (Z.pred (Z.of_nat (S k))) with (Z.of_nat k) by lia.
    constructor; [apply IH|].
    apply Forall_forall. intros x Hx%elem_of_seqZ. lia.
Qed.

Lemma filter_sorted {A} (R : relation A) (P : A -> Prop)
    `{!forall x, Decision (P x)} (l : list A) :
  StronglySorted R l -> StronglySorted R (filter P l).
Proof.
  induction 1 as [|x l Hl IH Hx]; [constructor|].
  rewrite filter_cons. destruct (decide (P x)); [|done].
  constructor; [done|]. apply Forall_forall. intros y Hy%list_elem_of_filter.
  rewrite Forall_forall in Hx. apply Hx. tauto.
Qed.

(** A store whose mutex is free is left as it was by taking and
    releasing the mutex. *)
Lemma unlocked_same s :
  mutex s = false ->
  {| segmentDir := segmentDir s;
     segmentDirMaxSize := segmentDirMaxSize s;
     segments := segments s;
     lastSegmentID := lastSegmentID s;
     mutex := false |} = s.
Proof. destruct s; simpl; by intros ->. Qed.

Lemma LatestSegments_returns fuel s count :
  mutex s = false -> 0 <= count -> (Z.to_nat count <= fuel)%nat ->
  LatestSegments fuel s count =
  Some (Returns s
          (omap (fun id => segments s !! id)
             (seqZ (lastSegmentID s - count + 1) count))).
Proof.
  intros Hm Hc Hf. unfold LatestSegments. rewrite Hm.
  destruct (Z.ltb_spec count 0) as [?|_]; [lia|].
  rewrite latestLoop_enough
    by (replace (lastSegmentID s - (lastSegmentID s - count + 1) + 1)
          with count by lia; done).
  replace (lastSegmentID s - (lastSegmentID s - count + 1) + 1)
    with count by lia.
  by rewrite unlocked_same.
Qed.

End StoreFacts.

Lemma keyed_by_map_Forall s :
  map_Forall (fun id segment => Storage.ID segment = id) (Storage.segments s) ->
  keyed s.
Proof. intros H id seg E. exact (H id seg E). Qed.

(** C10.  A negative count: on every store whose mutex is free,
    [LatestSegments(count)] with [count < 0] panics at the allocation of the
    result (it does not return an empty sequence), whatever the number of
    iterations allowed to its loop; the mutex it took stays held. *)
Theorem LatestSegments_negative_count_panics
    (fuel : nat) (s : Storage.storageImpl) (count : Z) :
  Storage.mutex s = false ->
  count < 0 ->
  Storage.LatestSegments fuel s count =
  Some (Panics {| Storage.segmentDir := Storage.segmentDir s;
                  Storage.segmentDirMaxSize := Storage.segmentDirMaxSize s;
                  Storage.segments := Storage.segments s;
                  Storage.lastSegmentID := Storage.lastSegmentID s;
                  Storage.mutex := true |}).
Proof.
  intros Hm Hc. unfold Storage.LatestSegments. rewrite Hm.
  by destruct (Z.ltb_spec count 0) as [_|?]; [|lia].
Qed.

Lemma LatestSegments_negative_count_panics_witness :
  let s := storeOf (seqZ 1 10) 10 in
  Storage.LatestSegments 0 s (-1) =
  Some (Panics {| Storage.segmentDir := Storage.segmentDir s;
                  Storage.segmentDirMaxSize := Storage.segmentDirMaxSize s;
                  Storage.segments := Storage.segments s;
                  Storage.lastSegmentID := Storage.lastSegmentID s;
                  Storage.mutex := true |}).
Proof.
  intros s.
  apply (LatestSegments_negative_count_panics 0 s (-1)); [reflexivity | lia].
Defined.

(** ** Adding segments *)

Section AddFacts.
Import Storage.

(** A call that returns either reports an error and leaves the store as
    it was, or had a complete copy and leaves the store with the file
    indexed. *)
Lemma addSegment_returns s created modified env s' r :
  addSegment s created modified env = Returns s' r ->
  (r <> None /\ s' = s)
  \/ (r = None /\ complete env /\ mutex s = false
      /\ s' = indexed s created modified).
Proof.
  unfold addSegment, complete.
  destruct (openErr env) as [e|]; [intros [= <- <-]; by left|].
  destruct (statSize env) as [size|e]; [|intros [= <- <-]; by left].
  destruct (createErr env) as [e|]; [intros [= <- <-]; by left|].
  destruct (copyErr env) as [e|]; [intros [= <- <-]; by left|].
  destruct (Z.eqb_spec (copied env) size) as [->|Hne]; simpl;
    [|intros [= <- <-]; by left].
  destruct (mutex s); [done|].
  intros [= <- <-]. right. by repeat split.
Qed.

Lemma addSegment_complete s created modified env :
  complete env -> mutex s = false ->
  addSegment s created modified env = Returns (indexed s created modified) None.
Proof.
  intros (Ho & Hc & He & Hs) Hm. unfold addSegment.
  rewrite Ho, Hs, Hc, He, Z.eqb_refl, Hm. done.
Qed.

(** The invariant behind the recency query: [New] files every segment
    under its own id, and [addSegment] keeps it so. *)
Lemma loadStep_keyed segs lastID name :
  (forall id segment, segs !! id = Some segment -> ID segment = id) ->
  forall id segment,
    fst (loadStep (segs, lastID) name) !! id = Some segment -> ID segment = id.
Proof.
  intros H id seg. unfold loadStep.
  destruct (segmentFromFileName name) as [sg|e]; simpl; [|apply H].
  destruct (decide (ID sg = id)) as [<-|Hne].
  - rewrite lookup_insert_eq. by intros [= <-].
  - rewrite lookup_insert_ne by done. apply H.
Qed.

Lemma fold_loadStep_keyed files segs lastID :
  (forall id segment, segs !! id = Some segment -> ID segment = id) ->
  forall id segment,
    fst (fold_left loadStep files (segs, lastID)) !! id = Some segment ->
    ID segment = id.
Proof.
  revert segs lastID. induction files as [|name files IH]; intros segs lastID H;
    [exact H|].
  change (fold_left loadStep (name :: files) (segs, lastID))
    with (fold_left loadStep files (loadStep (segs, lastID) name)).
  destruct (loadStep (segs, lastID) name) as [segs' last'] eqn:E.
  apply IH. intros id seg. pose proof (loadStep_keyed segs lastID name H id seg) as K.
  by rewrite E in K.
Qed.

Lemma New_keyed configDir readDir s : New configDir readDir = Ok s -> keyed s.
Proof.
  unfold New, loadSegments.
  destruct configDir as [dir|e]; [|done].
  destruct readDir as [files|e]; [|done].
  destruct (fold_left loadStep files (∅, 0)) as [segs lastID] eqn:E.
  intros [= <-] id seg. simpl.
  pose proof (fold_loadStep_keyed files ∅ 0) as K. rewrite E in K.
  apply K. intros ? ?. by rewrite lookup_empty.
Qed.

Lemma indexed_keyed s created modified :
  keyed s -> keyed (indexed s created modified).
Proof.
  intros H id seg. unfold indexed. simpl.
  destruct (decide (lastSegmentID s + 1 = id)) as [<-|Hne].
  - rewrite lookup_insert_eq. by intros [= <-].
  - rewrite lookup_insert_ne by done. apply H.
Qed.

Lemma addSegment_keyed s created modified env s' r :
  keyed s -> addSegment s created modified env = Returns s' r -> keyed s'.
Proof.
  intros H [[_ ->]|(_ & _ & _ & ->)]%addSegment_returns; [done|].
  by apply indexed_keyed.
Qed.

End AddFacts.

(** C3.  Integrity rejection: when the number of bytes copied differs from
    the size the source file reports, [addSegment] returns an error (the
    integrity error, unless the operating system reported one before) and
    leaves the store, and so [lastID] and the index, exactly as it was.  And
    whatever the operating system answers, a call that changes the store
    had a complete copy: the index only ever gets a file whose copy was
    complete. *)
Theorem addSegment_integrity
    (s : Storage.storageImpl) (created modified : GoTime.Time)
    (env : Storage.copyEnv) (size : Z) :
  Storage.statSize env = Ok size ->
  Storage.copied env <> size ->
  (exists e,
     Storage.addSegment s created modified env = Returns s (Some e)
     /\ (Storage.openErr env = None -> Storage.createErr env = None ->
         Storage.copyErr env = None -> e = ErrShortCopy))
  /\ (forall env' s' r,
        Storage.addSegment s created modified env' = Returns s' r ->
        s' <> s ->
        r = None
        /\ Storage.copyErr env' = None
        /\ Storage.statSize env' = Ok (Storage.copied env')
        /\ Storage.lastSegmentID s' = Storage.lastSegmentID s + 1
        /\ Storage.segments s' =
             <[Storage.lastSegmentID s + 1 :=
                 {| Storage.ID := Storage.lastSegmentID s + 1;
                    Storage.Name :=
                      Storage.segmentName (GoTime.unixSec created)
                        (Z.quot (GoTime.Sub modified created) GoTime.Millisecond)
                        (Storage.lastSegmentID s + 1);
                    Storage.Time := created;
                    Storage.Duration := GoTime.Sub modified created |}]>
               (Storage.segments s)).
Proof.
  intros Hsize Hne. split.
  - unfold Storage.addSegment. rewrite Hsize.
    destruct (Storage.openErr env) as [e|]; [by exists e|].
    destruct (Storage.createErr env) as [e|]; [by exists e|].
    destruct (Storage.copyErr env) as [e|]; [by exists e|].
    destruct (Z.eqb_spec (Storage.copied env) size) as [?|_]; [done|].
    simpl. by exists ErrShortCopy.
  - intros env' s' r Hadd Hs'.
    apply addSegment_returns in Hadd as [[_ ->]|(-> & Hc & _ & ->)]; [done|].
    destruct Hc as (_ & _ & He & Hst). done.
Qed.

Lemma addSegment_integrity_witness :
  let s := storeOf (seqZ 2 3) 4 in
  let c := copyCall 1540000100 188000 1024 in
  (exists e,
     Storage.addSegment s (callCreated c) (callModified c) (callEnv c)
       = Returns s (Some e)
     /\ (Storage.openErr (callEnv c) = None ->
         Storage.createErr (callEnv c) = None ->
         Storage.copyErr (callEnv c) = None -> e = ErrShortCopy))
  /\ (forall env' s' r,
        Storage.addSegment s (callCreated c) (callModified c) env' = Returns s' r ->
        s' <> s ->
        r = None
        /\ Storage.copyErr env' = None
        /\ Storage.statSize env' = Ok (Storage.copied env')
        /\ Storage.lastSegmentID s' = Storage.lastSegmentID s + 1
        /\ Storage.segments s' =
             <[Storage.lastSegmentID s + 1 :=
                 {| Storage.ID := Storage.lastSegmentID s + 1;
                    Storage.Name :=
                      Storage.segmentName (GoTime.unixSec (callCreated c))
                        (Z.quot (GoTime.Sub (callModified c) (callCreated c))
                           GoTime.Millisecond)
                        (Storage.lastSegmentID s + 1);
                    Storage.Time := callCreated c;
                    Storage.Duration := GoTime.Sub (callModified c) (callCreated c) |}]>
               (Storage.segments s)).
Proof.
  intros s c.
  apply (addSegment_integrity s (callCreated c) (callModified c) (callEnv c) 188000).
  - reflexivity.
  - vm_compute. discriminate.
Defined.

(** ** Construction of the store and the ids it assigns *)

Section NewFacts.
Import Storage.

Lemma foldr_max_init a x (l : list Z) :
  foldr Z.max (Z.max a x) l = Z.max x (foldr Z.max a l).
Proof. induction l as [|y l IH]; simpl; [lia|]. rewrite IH. lia. Qed.

Lemma parsedIDs_cons name files :
  parsedIDs (name :: files) =
  match segmentFromFileName name with
  | Ok segment => ID segment :: parsedIDs files
  | Err _ => parsedIDs files
  end.
Proof. unfold parsedIDs. rewrite omap_cons. by destruct (segmentFromFileName name). Qed.

Lemma loadStep_eq segs a name :
  loadStep (segs, a) name =
  match segmentFromFileName name with
  | Ok segment => (<[ID segment := segment]> segs, Z.max a (ID segment))
  | Err _ => (segs, a)
  end.
Proof.
  unfold loadStep. destruct (segmentFromFileName name) as [sg|e]; [|done].
  f_equal. destruct (Z.gtb_spec (ID sg) a); lia.
Qed.

Lemma fold_loadStep files : forall segs a,
  snd (fold_left loadStep files (segs, a)) = foldr Z.max a (parsedIDs files)
  /\ dom (fst (fold_left loadStep files (segs, a)))
     = dom segs ∪ list_to_set (parsedIDs files).
Proof.
  induction files as [|name files IH]; intros segs a.
  - simpl. split; [done|]. set_solver.
  - change (fold_left loadStep (name :: files) (segs, a))
      with (fold_left loadStep files (loadStep (segs, a) name)).
    rewrite parsedIDs_cons, loadStep_eq.
    destruct (segmentFromFileName name) as [sg|e]; [|apply IH].
    destruct (IH (<[ID sg := sg]> segs) (Z.max a (ID sg))) as [-> ->].
    split.
    + cbn [foldr]. by rewrite foldr_max_init.
    + rewrite dom_insert_L. cbn [list_to_set foldr]. set_solver.
Qed.

(** On every run in which each call returns [nil], the ids left in
    [lastSegmentID] count up from the one after the store's. *)
Lemma addSegments_all_succeed calls : forall s,
  mutex s = false ->
  length (addSegments s calls) = length calls ->
  Forall (fun x => fst x = None) (addSegments s calls) ->
  assignedIDs (addSegments s calls)
    = seqZ (lastSegmentID s + 1) (Z.of_nat (length calls))
  /\ Forall (fun x =>
               exists segment,
                 segments (snd x) !! lastSegmentID (snd x) = Some segment
                 /\ ID segment = lastSegmentID (snd x))
       (addSegments s calls).
Proof.
  induction calls as [|c calls IH]; intros s Hm Hlen Hall.
  - split; [done | constructor].
  - cbn [addSegments] in *.
    destruct (addSegment s (callCreated c) (callModified c) (callEnv c))
      as [s' r| |] eqn:E; [|done..].
    cbn [length] in Hlen. apply Forall_cons in Hall as [Hr Hall]. simpl in Hr. subst r.
    apply addSegment_returns in E as [[? _]|(_ & _ & _ & ->)]; [done|].
    destruct (IH (indexed s (callCreated c) (callModified c))) as [Hids Hidx];
      [done | lia | done |].
    split.
    + unfold assignedIDs in *. rewrite omap_cons. cbn [fst snd].
      rewrite Hids. cbn [length].
      rewrite (seqZ_cons (lastSegmentID s + 1)) by lia.
      cbn [indexed lastSegmentID]. f_equal. f_equal; lia.
    + constructor; [|done]. cbn [snd indexed lastSegmentID segments].
      eexists. by rewrite lookup_insert_eq.
Qed.

End NewFacts.

(** C1 (as the code has it).  The store constructed over a directory has
    [lastID] one above the largest of 0 and the ids of the entries that
    parse (so 1 when none parses), and its index holds exactly those ids.
    After [n] calls of [addSegment] that all return [nil] on a store
    constructed over an empty directory, the ids assigned are 2..n+1 in
    call order, each segment being filed under its id. *)
Theorem New_lastID_then_ids
    (dir : string) (files : list string) (calls : list call)
    (s0 : Storage.storageImpl) :
  Storage.New (Ok dir) (Ok []) = Ok s0 ->
  length (addSegments s0 calls) = length calls ->
  Forall (fun x => fst x = None) (addSegments s0 calls) ->
  (exists s,
     Storage.New (Ok dir) (Ok files) = Ok s
     /\ Storage.lastSegmentID s = foldr Z.max 0 (parsedIDs files) + 1
     /\ dom (Storage.segments s) = list_to_set (parsedIDs files)
     /\ Storage.mutex s = false)
  /\ Storage.lastSegmentID s0 = 1
  /\ Storage.segments s0 = ∅
  /\ assignedIDs (addSegments s0 calls) = seqZ 2 (Z.of_nat (length calls))
  /\ Forall (fun x =>
               exists segment,
                 Storage.segments (snd x) !! Storage.lastSegmentID (snd x)
                   = Some segment
                 /\ Storage.ID segment = Storage.lastSegmentID (snd x))
       (addSegments s0 calls).
Proof.
  intros [= <-] Hlen Hall. split.
  - unfold Storage.New, Storage.loadSegments.
    destruct (fold_loadStep files ∅ 0) as [Hlast Hdom].
    destruct (fold_left Storage.loadStep files (∅, 0)) as [segs lastID].
    simpl in Hlast, Hdom. subst lastID.
    eexists. split; [reflexivity|]. cbn.
    repeat split. rewrite Hdom. set_solver.
  - pose proof (addSegments_all_succeed calls _ (eq_refl : Storage.mutex
        {| Storage.segmentDir := dir;
           Storage.segmentDirMaxSize := 1024 * 1024 * 1024;
           Storage.segments := ∅;
           Storage.lastSegmentID := 0 + 1;
           Storage.mutex := false |} = false) Hlen Hall) as [Hids Hidx].
    by repeat split.
Qed.

(** C1 as the specification states it does not hold: over an empty
    directory [lastID] is 1, not 0, and the first two ids assigned are 2
    and 3, not 1 and 2. *)
Lemma New_lastID_counterexample :
  exists s,
    Storage.New (Ok "/home/pi/.pi-camera-go/segments") (Ok []) = Ok s
    /\ Storage.lastSegmentID s <> spec_lastID []
    /\ assignedIDs
         (addSegments s [copyCall 1540000000 188000 188000;
                         copyCall 1540000005 188000 188000])
       <> [1; 2].
Proof.
  eexists. split; [reflexivity|]. split; vm_compute; discriminate.
Qed.

Lemma New_lastID_then_ids_witness :
  let dir := "/home/pi/.pi-camera-go/segments" in
  let files := ["readme.txt"; "segment_1540000000_5000_3.ts";
                "segment_1540000005_5000_4.ts"; "segment_x_5000_9.ts"] in
  let calls := [copyCall 1540000000 188000 188000;
                copyCall 1540000005 188000 188000;
                copyCall 1540000010 376000 376000] in
  let s0 := storeOf [] 1 in
  (exists s,
     Storage.New (Ok dir) (Ok files) = Ok s
     /\ Storage.lastSegmentID s = foldr Z.max 0 (parsedIDs files) + 1
     /\ dom (Storage.segments s) = list_to_set (parsedIDs files)
     /\ Storage.mutex s = false)
  /\ Storage.lastSegmentID s0 = 1
  /\ Storage.segments s0 = ∅
  /\ assignedIDs (addSegments s0 calls) = seqZ 2 (Z.of_nat (length calls))
  /\ Forall (fun x =>
               exists segment,
                 Storage.segments (snd x) !! Storage.lastSegmentID (snd x)
                   = Some segment
                 /\ Storage.ID segment = Storage.lastSegmentID (snd x))
       (addSegments s0 calls).
Proof.
  intros dir files calls s0.
  apply (New_lastID_then_ids dir files calls s0).
  - reflexivity.
  - reflexivity.
  - repeat constructor.
Defined.

(** ** The window of a store constructed over a directory *)

Lemma foldr_max_bounds a (l : list Z) :
  (forall x, x ∈ l -> x <= foldr Z.max a l)
  /\ (foldr Z.max a l = a \/ foldr Z.max a l ∈ l).
Proof.
  induction l as [|y l [IHu IHe]].
  - split; [by intros x ?%not_elem_of_nil | by left].
  - cbn [foldr]. split.
    + intros x [->|H]%elem_of_cons; [lia|]. specialize (IHu x H). lia.
    + destruct (Z.max_spec y (foldr Z.max a l)) as [[_ ->]|[_ ->]].
      * destruct IHe as [->|H]; [by left | right; by right].
      * right. by left.
Qed.

(** C4 (as the code has it).  Bounded recency: on a store with
    [lastID = L] whose mutex is free and that files every segment under its
    own id, [LatestSegments(k)] with [k >= 0] returns (given the [k]
    iterations its loop needs) and leaves the store as it was; it returns
    at most [k] segments, their ids lie in [[L-k+1, L]] and ascend, and an
    id of that range is returned exactly when the index has it.  When the
    store is the one constructed over a directory and holds the ids 1..10,
    its [lastID] is 11, an id that no segment has, and [LatestSegments(3)]
    returns the two ids 9, 10 in that order. *)
Theorem LatestSegments_bounded_recency
    (fuel : nat) (s : Storage.storageImpl) (k : Z)
    (dir : string) (files : list string) :
  Storage.mutex s = false ->
  keyed s ->
  0 <= k ->
  (Z.to_nat k <= fuel)%nat ->
  (exists segs,
     Storage.LatestSegments fuel s k = Some (Returns s segs)
     /\ Z.of_nat (length segs) <= k
     /\ Forall (fun segment =>
                  Storage.lastSegmentID s - k + 1 <= Storage.ID segment
                  <= Storage.lastSegmentID s) segs
     /\ StronglySorted Z.lt (Storage.ID <$> segs)
     /\ (forall id,
           id ∈ (Storage.ID <$> segs) <->
           Storage.lastSegmentID s - k + 1 <= id <= Storage.lastSegmentID s
           /\ is_Some (Storage.segments s !! id)))
  /\ (Storage.New (Ok dir) (Ok files) = Ok s ->
      (forall id, is_Some (Storage.segments s !! id) <-> 1 <= id <= 10) ->
      k = 3 ->
      Storage.lastSegmentID s = 11
      /\ exists segs,
           Storage.LatestSegments fuel s 3 = Some (Returns s segs)
           /\ Storage.ID <$> segs = [9; 10]).
Proof.
  intros Hm Hk Hk0 Hfuel.
  set (L := Storage.lastSegmentID s).
  assert (Hids := keyed_ids (Storage.segments s) (seqZ (L - k + 1) k) Hk).
  split.
  - eexists. split; [by apply LatestSegments_returns|]. fold L.
    assert (forall id,
              id ∈ (Storage.ID <$> omap (fun id => Storage.segments s !! id)
                                     (seqZ (L - k + 1) k)) <->
              L - k + 1 <= id <= L /\ is_Some (Storage.segments s !! id)) as Hin.
    { intros id. rewrite Hids, list_elem_of_filter, elem_of_seqZ.
      split; intros [? ?]; (split; [|lia || done]); lia || done. }
    split; [|split; [|split]].
    + pose proof (omap_length_le (fun id => Storage.segments s !! id)
                    (seqZ (L - k + 1) k)) as Hlen.
      rewrite length_seqZ in Hlen. lia.
    + apply Forall_forall. intros seg Hseg.
      assert (Storage.ID seg ∈ (Storage.ID <$> omap (fun id => Storage.segments s !! id)
                                     (seqZ (L - k + 1) k))) as Hi
        by (apply list_elem_of_fmap; eauto).
      apply Hin in Hi. tauto.
    + rewrite Hids. apply filter_sorted, seqZ_sorted.
    + exact Hin.
  - intros HNew Hall ->.
    assert (L = 11) as HL.
    { subst L. revert HNew. unfold Storage.New, Storage.loadSegments.
      destruct (fold_loadStep files ∅ 0) as [Hlast Hdom].
      destruct (fold_left Storage.loadStep files (∅, 0)) as [segs lastID].
      simpl in Hlast, Hdom. intros [= <-].
      cbn [Storage.segments Storage.lastSegmentID] in *.
      assert (forall id, id ∈ parsedIDs files <-> 1 <= id <= 10) as Hp.
      { intros id. rewrite <- Hall, <- elem_of_dom, Hdom. set_solver. }
      destruct (foldr_max_bounds 0 (parsedIDs files)) as [Hu He].
      assert (10 <= lastID) by (rewrite Hlast; apply Hu, Hp; lia).
      assert (lastID <= 10).
      { rewrite Hlast. destruct He as [->|He]; [lia|]. apply Hp in He. lia. }
      lia. }
    split; [exact HL|]. eexists. split; [by apply LatestSegments_returns|].
    fold L. rewrite Hids, HL.
    change (seqZ (11 - 3 + 1) 3) with [9; 10; 11].
    rewrite !filter_cons, filter_nil.
    rewrite !decide_True by (apply Hall; lia).
    rewrite decide_False by (rewrite Hall; lia). done.
Qed.

Lemma LatestSegments_bounded_recency_witness :
  let files := ["segment_1540000005_5000_1.ts"; "segment_1540000010_5000_2.ts";
                "segment_1540000015_5000_3.ts"; "segment_1540000020_5000_4.ts";
                "segment_1540000025_5000_5.ts"; "segment_1540000030_5000_6.ts";
                "segment_1540000035_5000_7.ts"; "segment_1540000040_5000_8.ts";
                "segment_1540000045_5000_9.ts"; "segment_1540000050_5000_10.ts"] in
  let s := storeOf (seqZ 1 10) 11 in
  Storage.New (Ok "/home/pi/.pi-camera-go/segments") (Ok files) = Ok s
  /\ (exists segs,
        Storage.LatestSegments 3 s 3 = Some (Returns s segs)
        /\ Z.of_nat (length segs) <= 3
        /\ Forall (fun segment => 11 - 3 + 1 <= Storage.ID segment <= 11) segs
        /\ StronglySorted Z.lt (Storage.ID <$> segs)
        /\ (forall id,
              id ∈ (Storage.ID <$> segs) <->
              11 - 3 + 1 <= id <= 11 /\ is_Some (Storage.segments s !! id)))
  /\ Storage.lastSegmentID s = 11
  /\ exists segs,
       Storage.LatestSegments 3 s 3 = Some (Returns s segs)
       /\ Storage.ID <$> segs = [9; 10].
Proof.
  intros files s.
  assert (Storage.New (Ok "/home/pi/.pi-camera-go/segments") (Ok files) = Ok s)
    as HNew by (vm_compute; reflexivity).
  split; [exact HNew|].
  assert (Storage.mutex s = false) as Hm by reflexivity.
  assert (keyed s) as Hk.
  { apply keyed_by_map_Forall. apply (bool_decide_unpack _). vm_compute. exact I. }
  assert (0 <= 3) as Hk0 by lia.
  assert (Z.to_nat 3 <= 3)%nat as Hfuel by (vm_compute; lia).
  destruct (LatestSegments_bounded_recency 3 s 3
              "/home/pi/.pi-camera-go/segments" files Hm Hk Hk0 Hfuel)
    as [Hgen Hex].
  split; [exact Hgen|].
  apply Hex; [exact HNew | | reflexivity].
  intros id. rewrite <- elem_of_dom.
  assert (dom (Storage.segments s) = list_to_set (seqZ 1 10)) as ->
    by (apply (bool_decide_unpack _); vm_compute; exact I).
  rewrite elem_of_list_to_set, elem_of_seqZ. lia.
Defined.

(** C4 as the specification states it does not hold for its example.  The
    store constructed over a directory with the ids 1..10 answers
    [LatestSegments(3)] with the ids 9, 10; the store that has indexed ten
    segments one after the other, starting over an empty directory, holds
    the ids 2..11 and answers with 9, 10, 11.  Neither answers 8, 9, 10. *)
Lemma LatestSegments_bounded_recency_counterexample :
  (exists s segs,
     Storage.New (Ok "/home/pi/.pi-camera-go/segments")
       (Ok ["segment_1540000005_5000_1.ts"; "segment_1540000010_5000_2.ts";
            "segment_1540000015_5000_3.ts"; "segment_1540000020_5000_4.ts";
            "segment_1540000025_5000_5.ts"; "segment_1540000030_5000_6.ts";
            "segment_1540000035_5000_7.ts"; "segment_1540000040_5000_8.ts";
            "segment_1540000045_5000_9.ts"; "segment_1540000050_5000_10.ts"])
     = Ok s
     /\ dom (Storage.segments s) = list_to_set (seqZ 1 10)
     /\ Storage.LatestSegments 3 s 3 = Some (Returns s segs)
     /\ Storage.ID <$> segs = [9; 10]
     /\ Storage.ID <$> segs <> [8; 9; 10])
  /\ (exists s0 s segs,
        Storage.New (Ok "/home/pi/.pi-camera-go/segments") (Ok []) = Ok s0
        /\ lastStore s0
             (addSegments s0
                ((fun i => copyCall (1540000000 + 5 * i) 188000 188000)
                   <$> seqZ 1 10)) = s
        /\ dom (Storage.segments s) = list_to_set (seqZ 2 10)
        /\ Storage.LatestSegments 3 s 3 = Some (Returns s segs)
        /\ Storage.ID <$> segs = [9; 10; 11]
        /\ Storage.ID <$> segs <> [8; 9; 10]).
Proof.
  split.
  - eexists _, _. split; [vm_compute; reflexivity|].
    split; [apply (bool_decide_unpack _); vm_compute; exact I|].
    split; [vm_compute; reflexivity|].
    split; [vm_compute; reflexivity | vm_compute; discriminate].
  - eexists _, _, _. split; [reflexivity|].
    split; [vm_compute; reflexivity|].
    split; [apply (bool_decide_unpack _); vm_compute; exact I|].
    split; [vm_compute; reflexivity|].
    split; [vm_compute; reflexivity | vm_compute; discriminate].
Qed.

(** ** The capture monitor: [Start] and [Stop] *)

Section StopFacts.
Import Recorder.


Lemma Stop_started env w f c :
  cancelFunc (rec w) = Some f -> cmd (rec w) = Some c ->
  Stop env w =
  Returns {| rec := {| cancelFunc := None;
                       cmd := None;
                       recorderDir := recorderDir (rec w);
                       segmentDuration := segmentDuration (rec w);
                       width := width (rec w);
                       height := height (rec w);
                       bitRate := bitRate (rec w);
                       subscribers := subscribers (rec w) |};
             files := files w;
             trace := trace w ++ [EvCancel f; EvWait c] |}
          (waitErr env).
Proof. intros Hf Hc. unfold Stop. by rewrite Hf, Hc. Qed.

Lemma Stop_stopped env w :
  cancelFunc (rec w) = None -> cmd (rec w) = None ->
  Stop env w = Panics w.
Proof.
  intros Hf Hc. unfold Stop. rewrite Hf.
  destruct w as [[f c d sd wd ht br sb] fs tr]. simpl in *. by subst.
Qed.

End StopFacts.




(** ** The capture monitor: the drain pass *)

Section DrainFacts.
Import GoStrings Recorder.

Lemma stripPrefix_Some p : forall s n, stripPrefix p s = Some n -> s = p +:+ n.
Proof.
  induction p as [|a p IH]; intros s n; simpl.
  - by intros [= ->].
  - destruct s as [|b s]; [done|].
    destruct (Ascii.eqb_spec a b) as [->|]; [|done].
    intros H%IH. by rewrite app_cons, H.
Qed.

Lemma entryOf_Some dir path name :
  entryOf dir path = Some name -> path = pathJoin dir name.
Proof.
  unfold entryOf, pathJoin.
  destruct (stripPrefix (dir +:+ "/") path) as [n|] eqn:E; [|done].
  destruct (hasSlash n || String.eqb n ""); [done|]. intros [= <-].
  apply stripPrefix_Some in E. by rewrite E, app_assoc_s.
Qed.

Lemma pathJoin_inj dir a b : pathJoin dir a = pathJoin dir b -> a = b.
Proof.
  unfold pathJoin. intros H.
  apply (inj (String.app dir)) in H. by apply (inj (String.app "/")) in H.
Qed.

Lemma NoDup_omap_inj {A B} (f : A -> option B) (l : list A) :
  (forall x y z, f x = Some z -> f y = Some z -> x = y) ->
  NoDup l -> NoDup (omap f l).
Proof.
  intros Hf. induction 1 as [|x l Hx Hl IH]; [constructor|].
  rewrite omap_cons. destruct (f x) as [z|] eqn:E; [|done].
  constructor; [|done].
  intros (y & Hy & Ey)%list_elem_of_omap.
  by rewrite (Hf x y z E Ey) in Hx.
Qed.

(** What a listing of the working directory is: the world is left as it
    was; the names are sorted and distinct, and each names a file. *)
Lemma ReadDir_listing env dir w w' listing :
  ReadDir env dir w = (w', Ok listing) ->
  w' = w
  /\ StronglySorted String.le listing
  /\ NoDup listing
  /\ (forall name, name ∈ listing -> pathJoin dir name ∈ files w).
Proof.
  unfold ReadDir. destruct (readDirErr env) as [e|]; [done|].
  intros [= <- <-]. split; [done|]. split; [|split].
  - apply StronglySorted_merge_sort; apply _.
  - rewrite merge_sort_Permutation.
    apply NoDup_omap_inj; [|apply NoDup_elements].
    intros x y z Hx%entryOf_Some Hy%entryOf_Some. congruence.
  - intros name. rewrite merge_sort_Permutation.
    intros (p & Hp & E)%list_elem_of_omap.
    apply entryOf_Some in E as <-. by apply elem_of_elements.
Qed.

(** Handing a file to the subscribers. *)
Lemma notify_subscribers (f : Subscriber -> event) subs : forall w,
  forEach subs (fun subscriber => emit (f subscriber)) w =
  ({| rec := rec w; files := files w; trace := trace w ++ (f <$> subs) |}, Ok tt).
Proof.
  induction subs as [|sub subs IH]; intros w.
  - cbn. rewrite app_nil_r. by destruct w.
  - cbn [forEach]. unfold bind at 1. unfold emit at 1.
    rewrite IH. cbn. by rewrite <- app_assoc.
Qed.

(** One round of the loop of [checkFiles], when nothing fails. *)
Lemma drain_one env r name w :
  rec w = r ->
  pathJoin (recorderDir r) name ∈ files w ->
  convertedName name <> name ->
  drainable r env name ->
  (filePath <- muxFile env name ;;
   forEach (subscribers r) (fun subscriber =>
     emit (EvVideoRecorded subscriber filePath (now env filePath)
             (GoTime.Add (now env filePath) (segmentDuration r)))) ;;;
   Remove env filePath)%rec w =
  ({| rec := r;
      files := files w ∖ ({[pathJoin (recorderDir r) name]}
                          ∪ {[pathJoin (recorderDir r) (convertedName name)]});
      trace := trace w ++ drainEvents r env name |}, Ok tt).
Proof.
  intros <- Hin Hconv (Hff & Hrin & Hrout).
  set (inPath := pathJoin (recorderDir (rec w)) name) in *.
  set (outPath := pathJoin (recorderDir (rec w)) (convertedName name)) in *.
  assert (outPath <> inPath) as Hne
    by (intros E; by apply pathJoin_inj in E).
  unfold muxFile, bind, getRecorder, ffmpeg, ret.
  fold (convertedName name). fold inPath outPath.
  rewrite decide_True by done. rewrite Hff.
  unfold Remove at 1. cbn [files rec trace].
  rewrite decide_True by set_solver. rewrite Hrin.
  rewrite notify_subscribers. cbn [files rec trace].
  unfold Remove. cbn [files rec trace].
  rewrite decide_True by set_solver. rewrite Hrout.
  f_equal. f_equal.
  - set_solver.
  - unfold drainEvents. fold inPath outPath. by rewrite <- !app_assoc.
Qed.

(** A name that ends in [.h264] differs from one that does not. *)
Lemma suffix_differs a b :
  HasSuffix a ".h264" = true -> HasSuffix b ".h264" = false -> a <> b.
Proof. intros Ha Hb ->. congruence. Qed.

(** The loop of [checkFiles] over chunks that are all there, when
    nothing fails. *)
Lemma drain_all env r chunks : forall w,
  rec w = r ->
  NoDup chunks ->
  (forall c, c ∈ chunks -> pathJoin (recorderDir r) c ∈ files w) ->
  Forall (drainable r env) chunks ->
  Forall (fun c => HasSuffix c ".h264" = true) chunks ->
  Forall (fun c => HasSuffix (convertedName c) ".h264" = false) chunks ->
  forEach chunks (fun name =>
    filePath <- muxFile env name ;;
    forEach (subscribers r) (fun subscriber =>
      emit (EvVideoRecorded subscriber filePath (now env filePath)
              (GoTime.Add (now env filePath) (segmentDuration r)))) ;;;
    Remove env filePath)%rec w =
  ({| rec := r;
      files := files w ∖ removedBy r chunks;
      trace := trace w ++ flat_map (drainEvents r env) chunks |}, Ok tt).
Proof.
  induction chunks as [|c chunks IH]; intros w Hr Hnd Hin Hdr Hraw Hconv.
  - cbn. unfold ret, removedBy. cbn. rewrite app_nil_r.
    destruct w as [r' fs tr]. simpl in *. subst r'. f_equal. f_equal. set_solver.
  - apply NoDup_cons in Hnd as [Hc Hnd].
    apply Forall_cons in Hdr as [Hdc Hdr].
    apply Forall_cons in Hraw as [Hrc Hraw].
    apply Forall_cons in Hconv as [Hcc Hconv].
    cbn [forEach]. unfold bind at 1. cbv beta.
    rewrite (drain_one env r c w Hr); [| |by apply not_eq_sym, suffix_differs|done].
    2: { apply Hin. by left. }
    rewrite IH; [| done | done | | done..].
    + cbn [files trace]. f_equal. f_equal.
      * unfold removedBy. cbn [fmap list_fmap list_to_set foldr]. set_solver.
      * cbn [flat_map]. by rewrite <- app_assoc.
    + intros c' Hc'. cbn [files].
      assert (pathJoin (recorderDir r) c' ∈ files w) by (apply Hin; by right).
      assert (c' <> c) by (intros ->; done).
      assert (c' <> convertedName c).
      { apply suffix_differs; [|done]. rewrite Forall_forall in Hraw. by apply Hraw. }
      assert (pathJoin (recorderDir r) c' <> pathJoin (recorderDir r) c)
        by (intros E%pathJoin_inj; done).
      assert (pathJoin (recorderDir r) c'
              <> pathJoin (recorderDir r) (convertedName c))
        by (intros E%pathJoin_inj; done).
      set_solver.
Qed.

Lemma allButLast_snoc {A} (l : list A) (x : A) : allButLast (l ++ [x]) = l.
Proof.
  unfold allButLast. rewrite length_app. cbn [length].
  replace (length l + 1 - 1)%nat with (length l) by lia.
  by rewrite take_app_length.
Qed.

Lemma allButLast_short {A} (l : list A) : (length l < 2)%nat -> allButLast l = [].
Proof. destruct l as [|x [|y l]]; simpl; [done | done | lia]. Qed.

(** [checkFiles] once the directory has been listed. *)
Lemma checkFiles_listing env w listing :
  ReadDir env (recorderDir (rec w)) w = (w, Ok listing) ->
  checkFiles env w =
  if (length (rawChunks listing) <? 2)%nat then (w, Ok tt)
  else
    forEach (allButLast (rawChunks listing)) (fun name =>
      filePath <- muxFile env name ;;
      forEach (subscribers (rec w)) (fun subscriber =>
        emit (EvVideoRecorded subscriber filePath (now env filePath)
                (GoTime.Add (now env filePath) (segmentDuration (rec w))))) ;;;
      Remove env filePath)%rec w.
Proof.
  intros Hread. unfold checkFiles. unfold bind at 1.
  unfold getRecorder at 1. cbv beta iota.
  unfold bind at 1. rewrite Hread. cbv beta iota zeta.
  fold (rawChunks listing).
  by destruct (length (rawChunks listing) <? 2)%nat.
Qed.

(** The names that the capture process gives its chunks are raw chunk
    names, and the names of their converted files are not. *)
Lemma zeros_no_dot k : occurs "."%char (zeros k) = false.
Proof. induction k as [|k IH]; [done|]. exact IH. Qed.

Lemma formatInt012_no_dot n : occurs "."%char (formatInt012 n) = false.
Proof.
  unfold formatInt012. destruct (n <? 0).
  - rewrite occurs_cons, occurs_app, zeros_no_dot.
    by rewrite (allDigits_occurs _ _ dot_not_digit (formatUint_allDigits _)).
  - rewrite occurs_app, zeros_no_dot.
    by rewrite (allDigits_occurs _ _ dot_not_digit (formatUint_allDigits _)).
Qed.

Lemma ReplaceFirst_no_dot s :
  occurs "."%char s = false ->
  ReplaceFirst (s +:+ ".h264") ".h264" ".ts" = s +:+ ".ts".
Proof.
  induction s as [|c s IH]; [done|].
  rewrite occurs_cons. intros [Hc Hs]%orb_false_iff.
  rewrite !app_cons. cbn [ReplaceFirst String.prefix].
  destruct (ascii_dec "." c) as [<-|_]; [done|].
  by rewrite (IH Hs).
Qed.

Lemma HasSuffix_ts s :
  occurs "."%char s = false -> HasSuffix (s +:+ ".ts") ".h264" = false.
Proof.
  induction s as [|c s IH]; [done|].
  rewrite occurs_cons. intros [Hc Hs]%orb_false_iff.
  rewrite app_cons. cbn [HasSuffix]. rewrite (IH Hs), orb_false_r.
  cbn [String.eqb]. by rewrite Hc.
Qed.

Lemma HasSuffix_h264 s : HasSuffix (s +:+ ".h264") ".h264" = true.
Proof.
  induction s as [|c s IH]; [done|].
  rewrite app_cons. cbn [HasSuffix]. by rewrite IH, orb_true_r.
Qed.

Lemma chunkName_raw n : HasSuffix (chunkName n) ".h264" = true.
Proof. unfold chunkName. rewrite <- app_assoc_s. apply HasSuffix_h264. Qed.

Lemma chunkName_converted n :
  convertedName (chunkName n) = "segment" +:+ formatInt012 n +:+ ".ts".
Proof.
  unfold convertedName, chunkName. rewrite <- !app_assoc_s.
  apply ReplaceFirst_no_dot. rewrite occurs_app. apply formatInt012_no_dot.
Qed.

Lemma chunkName_converted_not_raw n :
  HasSuffix (convertedName (chunkName n)) ".h264" = false.
Proof.
  rewrite chunkName_converted, <- app_assoc_s.
  apply HasSuffix_ts. rewrite occurs_app. apply formatInt012_no_dot.
Qed.

End DrainFacts.



(** The drain pass of the specification's example, computed: raw chunks
    0, 1 and 2 and a file that is not a chunk; chunks 0 and 1 are
    converted and handed over in that order, and chunk 2 and the other
    file are all that is left. *)
Lemma checkFiles_chunks_012 :
  let w := worldOf [Recorder.chunkName 0; Recorder.chunkName 1;
                    Recorder.chunkName 2; "notes.txt"] in
  exists w',
    Recorder.checkFiles calmEnv w = (w', Ok tt)
    /\ elements (Recorder.files w') ≡ₚ
         ["/home/pi/.pi-camera-go/recorder/segment000000000002.h264";
          "/home/pi/.pi-camera-go/recorder/notes.txt"]
    /\ Recorder.trace w' =
         [Recorder.EvMux
            "/home/pi/.pi-camera-go/recorder/segment000000000000.h264"
            "/home/pi/.pi-camera-go/recorder/segment000000000000.ts";
          Recorder.EvRemove
            "/home/pi/.pi-camera-go/recorder/segment000000000000.h264";
          Recorder.EvVideoRecorded 0%nat
            "/home/pi/.pi-camera-go/recorder/segment000000000000.ts"
            (GoTime.mkTime 1540000000 0) (GoTime.mkTime 1540000005 0);
          Recorder.EvRemove
            "/home/pi/.pi-camera-go/recorder/segment000000000000.ts";
          Recorder.EvMux
            "/home/pi/.pi-camera-go/recorder/segment000000000001.h264"
            "/home/pi/.pi-camera-go/recorder/segment000000000001.ts";
          Recorder.EvRemove
            "/home/pi/.pi-camera-go/recorder/segment000000000001.h264";
          Recorder.EvVideoRecorded 0%nat
            "/home/pi/.pi-camera-go/recorder/segment000000000001.ts"
            (GoTime.mkTime 1540000000 0) (GoTime.mkTime 1540000005 0);
          Recorder.EvRemove
            "/home/pi/.pi-camera-go/recorder/segment000000000001.ts"].
Proof.
  intros w.
  destruct (Recorder.checkFiles calmEnv w) as [w' r] eqn:E.
  vm_compute in E. injection E as <- <-.
  eexists. split; [reflexivity|]. split; [|reflexivity].
  apply (bool_decide_unpack _). vm_compute. exact I.
Qed.

(** With a single raw chunk, the one being written, the pass does
    nothing. *)
Lemma checkFiles_single_chunk :
  let w := worldOf [Recorder.chunkName 41; "notes.txt"] in
  Recorder.checkFiles calmEnv w = (w, Ok tt).
Proof. vm_compute. reflexivity. Qed.

(** ** The live playlist *)

Section PlaylistFacts.
Import Storage Server.
Variable formatSeconds : Z -> string.

Lemma scanStep_eq t f segment :
  scanStep (t, f) segment =
  (Z.max t (Duration segment), if f =? 0 then ID segment else f).
Proof.
  unfold scanStep. f_equal.
  destruct (Z.gtb_spec (Duration segment) t); lia.
Qed.

(** What the first loop leaves. *)
Lemma fold_scanStep segs : forall t f,
  fold_left scanStep segs (t, f) =
  (foldr Z.max t (Duration <$> segs),
   if f =? 0 then firstNonZeroID segs else f).
Proof.
  induction segs as [|s segs IH]; intros t f.
  - simpl. by destruct (f =? 0) eqn:E; [apply Z.eqb_eq in E as ->|].
  - change (fold_left scanStep (s :: segs) (t, f))
      with (fold_left scanStep segs (scanStep (t, f) s)).
    rewrite scanStep_eq, IH. cbn [fmap list_fmap foldr firstNonZeroID].
    rewrite foldr_max_init. f_equal.
    destruct (Z.eqb_spec f 0) as [->|Hf]; [done|].
    destruct (Z.eqb_spec f 0); [done | reflexivity].
Qed.

Lemma writePlaylist_body segs txt :
  body (writePlaylist formatSeconds segs txt) =
  [ "#EXTM3U" +:+ nl;
    targetDurationLine (Z.quot (foldr Z.max 0 (Duration <$> segs)) GoTime.Second);
    mediaSequenceLine (firstNonZeroID segs) ]
  ++ writeSegments formatSeconds (firstNonZeroID segs - 1) segs.
Proof. unfold writePlaylist. by rewrite fold_scanStep. Qed.

(** The second loop, entry by entry: each segment is paired with the id
    before it. *)
Lemma writeSegments_entries segs : forall prev,
  writeSegments formatSeconds prev segs =
  concat (zip_with (entry formatSeconds) (prev :: (ID <$> segs)) segs).
Proof.
  induction segs as [|s segs IH]; intros prev; [done|].
  change (zip_with (entry formatSeconds) (prev :: (ID <$> s :: segs)) (s :: segs))
    with (entry formatSeconds prev s
            :: zip_with (entry formatSeconds) (ID s :: (ID <$> segs)) segs).
  cbn [concat]. rewrite <- IH. cbn [writeSegments]. unfold entry.
  destruct (Z.eqb_spec (ID s) (prev + 1)) as [E|E].
  - rewrite decide_True by done. by rewrite <- app_assoc.
  - rewrite decide_False by done. by rewrite <- app_assoc.
Qed.

(** No other line of a playlist is a discontinuity marker. *)
Lemma extinf_not_marker segment :
  extinfLine formatSeconds segment <> discontinuityLine.
Proof. unfold extinfLine, discontinuityLine. rewrite !app_cons. discriminate. Qed.

Lemma uri_not_marker segment : uriLine segment <> discontinuityLine.
Proof. unfold uriLine, discontinuityLine. rewrite !app_cons. discriminate. Qed.

Lemma targetDuration_not_marker n : targetDurationLine n <> discontinuityLine.
Proof. unfold targetDurationLine, discontinuityLine. rewrite !app_cons. discriminate. Qed.

Lemma mediaSequence_not_marker n : mediaSequenceLine n <> discontinuityLine.
Proof. unfold mediaSequenceLine, discontinuityLine. rewrite !app_cons. discriminate. Qed.

Lemma header_not_marker : "#EXTM3U" +:+ nl <> discontinuityLine.
Proof. discriminate. Qed.

Lemma markers_cons_other line lines :
  line <> discontinuityLine -> markers (line :: lines) = markers lines.
Proof. intros H. unfold markers. by rewrite filter_cons, decide_False. Qed.

Lemma markers_cons_marker lines :
  markers (discontinuityLine :: lines) = S (markers lines).
Proof. unfold markers. by rewrite filter_cons, decide_True. Qed.

Lemma markers_app a b : markers (a ++ b) = (markers a + markers b)%nat.
Proof. unfold markers. by rewrite filter_app, length_app. Qed.

Lemma markers_plainEntries segs : markers (plainEntries formatSeconds segs) = 0%nat.
Proof.
  induction segs as [|s segs IH]; [done|].
  cbn [plainEntries flat_map app].
  rewrite markers_cons_other by apply extinf_not_marker.
  by rewrite markers_cons_other by apply uri_not_marker.
Qed.

(** Segments whose ids follow one another get no marker. *)
Lemma writeSegments_contiguous segs : forall prev,
  ID <$> segs = seqZ (prev + 1) (Z.of_nat (length segs)) ->
  writeSegments formatSeconds prev segs = plainEntries formatSeconds segs.
Proof.
  induction segs as [|s segs IH]; intros prev Hids; [done|].
  cbn [length] in Hids. rewrite seqZ_cons in Hids by lia.
  cbn [fmap list_fmap] in Hids. injection Hids as Hs Hrest.
  cbn [writeSegments plainEntries flat_map]. rewrite Hs, Z.eqb_refl.
  cbn [negb app]. f_equal. f_equal. rewrite <- Hs. apply IH.
  rewrite Hrest, Hs. f_equal; lia.
Qed.

End PlaylistFacts.

Lemma firstNonZeroID_head segment rest :
  Storage.ID segment <> 0 -> firstNonZeroID (segment :: rest) = Storage.ID segment.
Proof. intros H. cbn [firstNonZeroID]. by destruct (Z.eqb_spec (Storage.ID segment) 0). Qed.

(** C5 (as the code has it).  Discontinuities, for a window whose first
    segment's id is not 0: what is written for the segments is, for each
    segment in order, the line [#EXT-X-DISCONTINUITY] exactly when its id
    is not the id before it plus one, immediately followed by its duration
    line and its name, where the id before the first segment is
    [firstID - 1], [firstID] being the id of the first segment and the
    media sequence written.  For a window with the ids 1..10 without 7
    there is exactly one such line, and it stands immediately before the
    entry of segment 8. *)
Theorem playlist_discontinuities
    (formatSeconds : Z -> string)
    (first : Storage.Segment) (rest : list Storage.Segment) (txt : bool) :
  Storage.ID first <> 0 ->
  Server.body (Server.writePlaylist formatSeconds (first :: rest) txt) =
    [ "#EXTM3U" +:+ Server.nl;
      Server.targetDurationLine
        (Z.quot (foldr Z.max 0 (Storage.Duration <$> first :: rest)) GoTime.Second);
      Server.mediaSequenceLine (Storage.ID first) ]
    ++ concat (zip_with
                 (fun prev segment =>
                    (if decide (Storage.ID segment = prev + 1) then []
                     else ["#EXT-X-DISCONTINUITY" +:+ Server.nl])
                    ++ [Server.extinfLine formatSeconds segment;
                        Server.uriLine segment])
                 ((Storage.ID first - 1) :: (Storage.ID <$> first :: rest))
                 (first :: rest))
  /\ (Storage.ID <$> first :: rest = [1; 2; 3; 4; 5; 6; 8; 9; 10] ->
      exists before s8 after,
        first :: rest = before ++ s8 :: after
        /\ Storage.ID <$> before = [1; 2; 3; 4; 5; 6]
        /\ Storage.ID s8 = 8
        /\ Storage.ID <$> after = [9; 10]
        /\ Server.body (Server.writePlaylist formatSeconds (first :: rest) txt) =
             [ "#EXTM3U" +:+ Server.nl;
               Server.targetDurationLine
                 (Z.quot (foldr Z.max 0 (Storage.Duration <$> first :: rest))
                    GoTime.Second);
               "#EXT-X-MEDIA-SEQUENCE:1" +:+ Server.nl ]
             ++ plainEntries formatSeconds before
             ++ ["#EXT-X-DISCONTINUITY" +:+ Server.nl]
             ++ plainEntries formatSeconds (s8 :: after)
        /\ length (filter (fun line => line = "#EXT-X-DISCONTINUITY" +:+ Server.nl)
                     (Server.body
                        (Server.writePlaylist formatSeconds (first :: rest) txt)))
           = 1%nat).
Proof.
  intros Hfirst. split.
  - rewrite writePlaylist_body, writeSegments_entries.
    rewrite firstNonZeroID_head by done. reflexivity.
  - intros Hids.
    destruct rest as [|s2 [|s3 [|s4 [|s5 [|s6 [|s8 [|s9 [|s10 [|s11 l]]]]]]]]];
      try discriminate Hids.
    injection Hids as H1 H2 H3 H4 H5 H6 H8 H9 H10.
    exists [first; s2; s3; s4; s5; s6], s8, [s9; s10].
    split; [reflexivity|].
    split; [cbn [fmap list_fmap]; by rewrite H1, H2, H3, H4, H5, H6|].
    split; [done|].
    split; [cbn [fmap list_fmap]; by rewrite H9, H10|].
    assert (Server.body
              (Server.writePlaylist formatSeconds
                 [first; s2; s3; s4; s5; s6; s8; s9; s10] txt) =
            [ "#EXTM3U" +:+ Server.nl;
              Server.targetDurationLine
                (Z.quot (foldr Z.max 0
                           (Storage.Duration
                              <$> [first; s2; s3; s4; s5; s6; s8; s9; s10]))
                   GoTime.Second);
              Server.mediaSequenceLine 1 ]
            ++ plainEntries formatSeconds [first; s2; s3; s4; s5; s6]
            ++ [Server.discontinuityLine]
            ++ plainEntries formatSeconds [s8; s9; s10]) as Hbody.
    { rewrite writePlaylist_body.
      cbn [firstNonZeroID]. rewrite H1. cbn [Z.eqb Z.sub Z.add Z.opp Z.pos_sub].
      f_equal.
      cbn [Server.writeSegments]. rewrite H1, H2, H3, H4, H5, H6, H8, H9, H10.
      reflexivity. }
    split; [exact Hbody|].
    change ("#EXT-X-DISCONTINUITY" +:+ Server.nl) with Server.discontinuityLine.
    fold (markers (Server.body
                     (Server.writePlaylist formatSeconds
                        [first; s2; s3; s4; s5; s6; s8; s9; s10] txt))).
    rewrite Hbody, !markers_app. cbn [app].
    rewrite (markers_cons_other _ _ header_not_marker).
    rewrite (markers_cons_other _ _ (targetDuration_not_marker _)).
    rewrite (markers_cons_other _ _ (mediaSequence_not_marker _)).
    rewrite markers_cons_marker, !markers_plainEntries. reflexivity.
Qed.

Lemma playlist_discontinuities_witness :
  let files := ["segment_1540000005_5000_1.ts"; "segment_1540000010_5000_2.ts";
                "segment_1540000015_5000_3.ts"; "segment_1540000020_5000_4.ts";
                "segment_1540000025_5000_5.ts"; "segment_1540000030_5000_6.ts"] in
  let calls := (fun i => copyCall (1540000000 + 5 * i) 188000 188000)
                 <$> [8; 9; 10] in
  let first := exampleSegment 1 in
  let rest := exampleSegment <$> [2; 3; 4; 5; 6; 8; 9; 10] in
  exists s0 s,
    Storage.New (Ok "/home/pi/.pi-camera-go/segments") (Ok files) = Ok s0
    /\ lastStore s0 (addSegments s0 calls) = s
    /\ Storage.LatestSegments 10 s 10 = Some (Returns s (first :: rest))
    /\ exists before s8 after,
         first :: rest = before ++ s8 :: after
         /\ Storage.ID <$> before = [1; 2; 3; 4; 5; 6]
         /\ Storage.ID s8 = 8
         /\ Storage.ID <$> after = [9; 10]
         /\ Server.body (Server.writePlaylist sixDecimals (first :: rest) false) =
              [ "#EXTM3U" +:+ Server.nl;
                Server.targetDurationLine
                  (Z.quot (foldr Z.max 0 (Storage.Duration <$> first :: rest))
                     GoTime.Second);
                "#EXT-X-MEDIA-SEQUENCE:1" +:+ Server.nl ]
              ++ plainEntries sixDecimals before
              ++ ["#EXT-X-DISCONTINUITY" +:+ Server.nl]
              ++ plainEntries sixDecimals (s8 :: after)
         /\ length (filter (fun line => line = "#EXT-X-DISCONTINUITY" +:+ Server.nl)
                      (Server.body
                         (Server.writePlaylist sixDecimals (first :: rest) false)))
            = 1%nat.
Proof.
  intros files calls first rest.
  exists (storeOf (seqZ 1 6) 7), (storeOf [1; 2; 3; 4; 5; 6; 8; 9; 10] 10).
  split; [vm_compute; reflexivity|].
  split; [vm_compute; reflexivity|].
  split; [vm_compute; reflexivity|].
  refine (proj2 (playlist_discontinuities sixDecimals first rest false _) eq_refl).
  vm_compute. discriminate.
Defined.

(** C5 as the specification states it does not hold.  With files of the
    ids 0 and 1 in the directory, the window of the playlist has the ids
    0, 1, which follow one another, and the id of its first segment is 0;
    the media sequence written is 1 and a discontinuity marker stands
    before the entry of the first segment. *)
Lemma playlist_discontinuities_counterexample :
  exists s first second resp,
    Storage.New (Ok "/home/pi/.pi-camera-go/segments")
      (Ok ["segment_1540000000_5000_0.ts"; "segment_1540000005_5000_1.ts"])
    = Ok s
    /\ Storage.LatestSegments 3 s 3 = Some (Returns s [first; second])
    /\ Storage.ID first = 0
    /\ Storage.ID second = Storage.ID first + 1
    /\ Server.serveLivePlaylist sixDecimals 3 s (5 * GoTime.Second) false
       = Some (Returns s resp)
    /\ Server.body resp =
         [ "#EXTM3U" +:+ Server.nl;
           "#EXT-X-TARGETDURATION:5" +:+ Server.nl;
           "#EXT-X-MEDIA-SEQUENCE:1" +:+ Server.nl;
           "#EXT-X-DISCONTINUITY" +:+ Server.nl;
           Server.extinfLine sixDecimals first; Server.uriLine first;
           Server.extinfLine sixDecimals second; Server.uriLine second ]
    /\ Server.body resp <>
         [ "#EXTM3U" +:+ Server.nl;
           "#EXT-X-TARGETDURATION:5" +:+ Server.nl;
           "#EXT-X-MEDIA-SEQUENCE:0" +:+ Server.nl;
           Server.extinfLine sixDecimals first; Server.uriLine first;
           Server.extinfLine sixDecimals second; Server.uriLine second ].
Proof.
  eexists _, _, _, _.
  split; [vm_compute; reflexivity|]. split; [vm_compute; reflexivity|].
  split; [vm_compute; reflexivity|]. split; [vm_compute; reflexivity|].
  split; [vm_compute; reflexivity|]. split; [vm_compute; reflexivity|].
  vm_compute. discriminate.
Qed.





Lemma omap_lookup_empty (l : list Z) :
  omap (fun id => (∅ : gmap Z Storage.Segment) !! id) l = [].
Proof.
  induction l as [|i l IH]; [done|]. by rewrite omap_cons, lookup_empty.
Qed.

(** C9.  A playlist request on a store without segments (whose mutex is
    free, for a recorder whose segment duration is not 0): the handler
    returns, leaves the store as it was, and the response has the status
    200 and a body of the three header lines only, with the target
    duration 0 and the media sequence 0. *)
Theorem empty_store_playlist
    (formatSeconds : Z -> string) (fuel : nat) (s : Storage.storageImpl)
    (segmentDuration : Z) (txt : bool) :
  Storage.mutex s = false ->
  Storage.segments s = ∅ ->
  segmentDuration <> 0 ->
  (Z.to_nat (Z.max 3 (Z.quot (10 * GoTime.Second) segmentDuration)) <= fuel)%nat ->
  Server.serveLivePlaylist formatSeconds fuel s segmentDuration txt =
  Some (Returns s
          {| Server.status := 200;
             Server.contentType :=
               if txt then "text/plain" else "application/vnd.apple.mpegurl";
             Server.body :=
               [ "#EXTM3U" +:+ Server.nl;
                 "#EXT-X-TARGETDURATION:0" +:+ Server.nl;
                 "#EXT-X-MEDIA-SEQUENCE:0" +:+ Server.nl ] |}).
Proof.
  intros Hm Hempty Hd Hfuel. unfold Server.serveLivePlaylist.
  destruct (Z.eqb_spec segmentDuration 0) as [?|_]; [done|].
  set (n := Z.quot (10 * GoTime.Second) segmentDuration) in *.
  assert ((if n <? 3 then 3 else n) = Z.max 3 n) as ->
    by (destruct (Z.ltb_spec n 3); lia).
  rewrite LatestSegments_returns by (done || lia).
  by rewrite Hempty, omap_lookup_empty.
Qed.

Lemma empty_store_playlist_witness :
  Server.serveLivePlaylist sixDecimals 3 (storeOf [] 1) (5 * GoTime.Second) false =
  Some (Returns (storeOf [] 1)
          {| Server.status := 200;
             Server.contentType := "application/vnd.apple.mpegurl";
             Server.body :=
               [ "#EXTM3U" +:+ Server.nl;
                 "#EXT-X-TARGETDURATION:0" +:+ Server.nl;
                 "#EXT-X-MEDIA-SEQUENCE:0" +:+ Server.nl ] |}).
Proof.
  apply (empty_store_playlist sixDecimals 3 (storeOf [] 1) (5 * GoTime.Second) false).
  - reflexivity.
  - reflexivity.
  - vm_compute. discriminate.
  - vm_compute. lia.
Defined.

(** * Further properties of the segment store *)

Section LoadFacts.
Import Storage.

Lemma parsedSegments_cons name files :
  parsedSegments (name :: files) =
  match segmentFromFileName name with
  | Ok segment => segment :: parsedSegments files
  | Err _ => parsedSegments files
  end.
Proof.
  unfold parsedSegments. rewrite omap_cons.
  by destruct (segmentFromFileName name).
Qed.

Lemma parsedIDs_parsedSegments files : parsedIDs files = ID <$> parsedSegments files.
Proof.
  induction files as [|name files IH]; [done|].
  rewrite parsedIDs_cons, parsedSegments_cons.
  destruct (segmentFromFileName name); [|done]. by rewrite fmap_cons, IH.
Qed.

(** Entries that do not parse leave the loop of [loadSegments] where it
    was. *)
Lemma fold_loadStep_filter files : forall acc,
  fold_left loadStep (filter parses files) acc = fold_left loadStep files acc.
Proof.
  induction files as [|name files IH]; intros [segs a]; [done|].
  rewrite filter_cons. destruct (decide (parses name)) as [Hp|Hp].
  - cbn [fold_left]. apply IH.
  - cbn [fold_left]. rewrite IH. f_equal. rewrite loadStep_eq.
    destruct (segmentFromFileName name) as [sg|e] eqn:E; [|done].
    destruct Hp. by exists sg.
Qed.

(** What the loop of [loadSegments] files under an id: the last entry,
    in directory order, that parses with this id. *)
Lemma fold_loadStep_lookup files id : forall segs a,
  fst (fold_left loadStep files (segs, a)) !! id =
  match last (filter (fun segment => ID segment = id) (parsedSegments files)) with
  | Some segment => Some segment
  | None => segs !! id
  end.
Proof.
  induction files as [|name files IH]; intros segs a; [done|].
  change (fold_left loadStep (name :: files) (segs, a))
    with (fold_left loadStep files (loadStep (segs, a) name)).
  rewrite parsedSegments_cons, loadStep_eq.
  destruct (segmentFromFileName name) as [sg|e]; [|apply IH].
  rewrite IH, filter_cons.
  destruct (decide (ID sg = id)) as [E|E].
  - rewrite last_cons.
    destruct (last (filter (fun segment => ID segment = id) (parsedSegments files)));
      [done|].
    subst id. by rewrite lookup_insert_eq.
  - destruct (last (filter (fun segment => ID segment = id) (parsedSegments files)));
      [done|].
    by rewrite lookup_insert_ne.
Qed.

End LoadFacts.

(** X1.  Entries of the directory that do not parse under the naming
    convention are skipped: constructing the store over a listing gives
    the store constructed over the entries of the listing that parse. *)
Theorem New_skips_malformed (configDir : result string) (files : list string) :
  Storage.New configDir (Ok files) = Storage.New configDir (Ok (filter parses files)).
Proof.
  unfold Storage.New, Storage.loadSegments. destruct configDir as [dir|e]; [|done].
  by rewrite fold_loadStep_filter.
Qed.

(** What [New] files under an id. *)
Lemma New_lookup_last
    (dir : string) (files : list string) (s : Storage.storageImpl) (id : Z) :
  Storage.New (Ok dir) (Ok files) = Ok s ->
  Storage.segments s !! id =
  last (filter (fun segment => Storage.ID segment = id) (parsedSegments files)).
Proof.
  unfold Storage.New, Storage.loadSegments.
  pose proof (fold_loadStep_lookup files id ∅ 0) as H.
  destruct (fold_left Storage.loadStep files (∅, 0)) as [segs lastID].
  intros [= <-]. cbn [Storage.segments]. simpl in H. rewrite H.
  destruct (last _); [done|]. apply lookup_empty.
Qed.

(** X2.  When several entries of the directory parse with the same id,
    the index of the store constructed over it holds the last of them in
    directory order; an id with which no entry parses is not in the index. *)
Theorem New_last_entry_wins
    (dir : string) (files : list string) (s : Storage.storageImpl) (id : Z) :
  Storage.New (Ok dir) (Ok files) = Ok s ->
  Storage.segments s !! id =
  last (filter (fun segment => Storage.ID segment = id) (parsedSegments files)).
Proof. exact (New_lookup_last dir files s id). Qed.

Lemma New_last_entry_wins_witness :
  exists s,
    Storage.New (Ok "/home/pi/.pi-camera-go/segments")
      (Ok ["segment_1540000000_5000_3.mp4"; "segment_1540000000_5000_3.ts";
           "segment_1540000005_5000_4.ts"]) = Ok s
    /\ Storage.Name <$> (Storage.segments s !! 3)
       = Some "segment_1540000000_5000_3.ts"
    /\ Storage.segments s !! 5 = None.
Proof.
  destruct (Storage.New (Ok "/home/pi/.pi-camera-go/segments")
      (Ok ["segment_1540000000_5000_3.mp4"; "segment_1540000000_5000_3.ts";
           "segment_1540000005_5000_4.ts"])) as [s|e] eqn:E;
    [|vm_compute in E; discriminate].
  exists s. split; [reflexivity|].
  rewrite !(New_last_entry_wins _ _ s _ E). split; vm_compute; reflexivity.
Defined.

Section InvariantFacts.
Import Storage.

Lemma foldr_max_upper a (l : list Z) x : x ∈ l -> x <= foldr Z.max a l.
Proof.
  induction l as [|y l IH]; [by intros ?%not_elem_of_nil|].
  intros [->|H]%elem_of_cons; simpl; [lia|]. specialize (IH H). lia.
Qed.

(** Right after construction every id of the index is below [lastID]. *)
Lemma New_ids_below configDir readDir s id segment :
  New configDir readDir = Ok s ->
  segments s !! id = Some segment -> id < lastSegmentID s.
Proof.
  unfold New, loadSegments.
  destruct configDir as [dir|e]; [|done].
  destruct readDir as [files|e]; [|done].
  destruct (fold_loadStep files ∅ 0) as [Hlast Hdom].
  destruct (fold_left loadStep files (∅, 0)) as [segs lastID].
  simpl in Hlast, Hdom. intros [= <-]. cbn [segments lastSegmentID]. intros Hid.
  assert (id ∈ dom segs) as Hin by (apply elem_of_dom; eauto).
  rewrite Hdom, dom_empty_L, (left_id_L ∅ (∪)), elem_of_list_to_set in Hin.
  apply (foldr_max_upper 0) in Hin. lia.
Qed.

Lemma New_mutex_free configDir readDir s :
  New configDir readDir = Ok s -> mutex s = false.
Proof.
  unfold New. destruct configDir; [|done].
  destruct (loadSegments readDir) as [[segs lastID]|e]; [|done]. by intros [= <-].
Qed.

Lemma New_wellFormed configDir readDir s :
  New configDir readDir = Ok s -> wellFormed s.
Proof.
  intros H. split; [by eapply New_mutex_free|]. split; [by eapply New_keyed|].
  intros id seg Hid. pose proof (New_ids_below _ _ _ _ _ H Hid). lia.
Qed.

Lemma indexed_wellFormed s created modified :
  wellFormed s -> wellFormed (indexed s created modified).
Proof.
  intros (Hm & Hk & Hb). split; [done|]. split; [by apply indexed_keyed|].
  intros id seg. unfold indexed. cbn [segments lastSegmentID].
  destruct (decide (lastSegmentID s + 1 = id)) as [<-|Hne]; [lia|].
  rewrite lookup_insert_ne by done. intros H%Hb. lia.
Qed.

Lemma addSegment_wellFormed s created modified env s' r :
  wellFormed s -> addSegment s created modified env = Returns s' r -> wellFormed s'.
Proof.
  intros H [[_ ->]|(_ & _ & _ & ->)]%addSegment_returns; [done|].
  by apply indexed_wellFormed.
Qed.

(** With a free mutex [addSegment] returns. *)
Lemma addSegment_total s created modified env :
  mutex s = false -> exists s' r, addSegment s created modified env = Returns s' r.
Proof.
  intros Hm. unfold addSegment.
  destruct (openErr env); [eauto|]. destruct (statSize env); [|eauto].
  destruct (createErr env); [eauto|]. destruct (copyErr env); [eauto|].
  destruct (negb _); [eauto|]. rewrite Hm. eauto.
Qed.

Lemma omap_agree {A B} (f g : A -> option B) (l : list A) :
  (forall x, x ∈ l -> f x = g x) -> omap f l = omap g l.
Proof.
  induction l as [|x l IH]; intros H; [done|].
  rewrite !omap_cons, H by (by left). rewrite IH; [done|].
  intros y Hy. apply H. by right.
Qed.

(** The ids of a range, the last one apart. *)
Lemma seqZ_snoc m k : 1 <= k -> seqZ m k = seqZ m (k - 1) ++ [m + k - 1].
Proof.
  intros Hk. replace k with ((k - 1) + 1) at 1 by lia.
  rewrite seqZ_app by lia. f_equal.
  rewrite seqZ_cons by lia. rewrite seqZ_nil by lia. f_equal. lia.
Qed.

End InvariantFacts.

Lemma bounded_by_map_Forall s :
  map_Forall (fun id (_ : Storage.Segment) => id <= Storage.lastSegmentID s)
    (Storage.segments s) ->
  bounded s.
Proof. intros H id seg E. exact (H id seg E). Qed.

(** X3.  The state of the store between calls is an invariant: [New]
    establishes it (mutex free, every segment filed under its own id, no id
    above [lastID]), every call of [addSegment] that returns keeps it, and
    on such a store [addSegment] always returns. *)
Theorem store_invariant :
  (forall configDir readDir s,
     Storage.New configDir readDir = Ok s -> wellFormed s)
  /\ (forall s created modified env s' r,
        wellFormed s ->
        Storage.addSegment s created modified env = Returns s' r ->
        wellFormed s')
  /\ (forall s created modified env,
        wellFormed s ->
        exists s' r, Storage.addSegment s created modified env = Returns s' r).
Proof.
  split; [|split].
  - apply New_wellFormed.
  - apply addSegment_wellFormed.
  - intros s c m env (Hm & _). by apply addSegment_total.
Qed.

Lemma store_invariant_witness :
  let s := storeOf [2; 3; 4] 4 in
  let c := copyCall 1540000100 188000 187000 in
  wellFormed s
  /\ exists s' r,
       Storage.addSegment s (callCreated c) (callModified c) (callEnv c)
         = Returns s' r
       /\ wellFormed s'.
Proof.
  intros s c.
  assert (wellFormed s) as H.
  { split; [reflexivity|]. split.
    - apply keyed_by_map_Forall. apply (bool_decide_unpack _). vm_compute. exact I.
    - apply bounded_by_map_Forall. apply (bool_decide_unpack _). vm_compute. exact I. }
  split; [exact H|].
  destruct (proj2 (proj2 store_invariant) s (callCreated c) (callModified c)
              (callEnv c) H) as (s' & r & E).
  exists s', r. split; [exact E|].
  exact (proj1 (proj2 store_invariant) s (callCreated c) (callModified c)
           (callEnv c) s' r H E).
Defined.

(** The index after a successful [addSegment]. *)
Lemma addSegment_fresh
    (s s' : Storage.storageImpl) (created modified : GoTime.Time)
    (env : Storage.copyEnv) :
  wellFormed s ->
  Storage.addSegment s created modified env = Returns s' None ->
  Storage.lastSegmentID s' = Storage.lastSegmentID s + 1
  /\ Storage.segments s !! Storage.lastSegmentID s' = None
  /\ (forall id segment,
        Storage.segments s !! id = Some segment ->
        Storage.segments s' !! id = Some segment)
  /\ size (Storage.segments s') = S (size (Storage.segments s)).
Proof.
  intros (Hm & Hk & Hb) [[? _]|(_ & _ & _ & ->)]%addSegment_returns; [done|].
  cbn [indexed Storage.lastSegmentID Storage.segments].
  assert (Storage.segments s !! (Storage.lastSegmentID s + 1) = None) as Hfresh.
  { destruct (Storage.segments s !! (Storage.lastSegmentID s + 1)) as [seg|] eqn:E;
      [|done]. apply Hb in E. lia. }
  split; [done|]. split; [done|]. split.
  - intros id seg Hid. rewrite lookup_insert_ne; [done|].
    intros <-. congruence.
  - by rewrite map_size_insert_None.
Qed.

(** X4.  A successful [addSegment] on a store in that state never
    overwrites: the id it assigns was not in the index, every segment
    indexed before is still indexed, unchanged, and the index has grown by
    exactly one segment. *)
Theorem addSegment_appends
    (s s' : Storage.storageImpl) (created modified : GoTime.Time)
    (env : Storage.copyEnv) :
  wellFormed s ->
  Storage.addSegment s created modified env = Returns s' None ->
  Storage.lastSegmentID s' = Storage.lastSegmentID s + 1
  /\ Storage.segments s !! Storage.lastSegmentID s' = None
  /\ (forall id segment,
        Storage.segments s !! id = Some segment ->
        Storage.segments s' !! id = Some segment)
  /\ size (Storage.segments s') = S (size (Storage.segments s)).
Proof. exact (addSegment_fresh s s' created modified env). Qed.

Lemma addSegment_appends_witness :
  let s := storeOf [2; 3; 4] 4 in
  let c := copyCall 1540000100 188000 188000 in
  exists s',
    Storage.addSegment s (callCreated c) (callModified c) (callEnv c)
      = Returns s' None
    /\ Storage.lastSegmentID s' = Storage.lastSegmentID s + 1
    /\ Storage.segments s !! Storage.lastSegmentID s' = None
    /\ (forall id segment,
          Storage.segments s !! id = Some segment ->
          Storage.segments s' !! id = Some segment)
    /\ size (Storage.segments s') = S (size (Storage.segments s)).
Proof.
  intros s c. eexists. split; [reflexivity|].
  apply (addSegment_appends s _ (callCreated c) (callModified c) (callEnv c));
    [|reflexivity].
  split; [reflexivity|]. split.
  - apply keyed_by_map_Forall. apply (bool_decide_unpack _). vm_compute. exact I.
  - apply bounded_by_map_Forall. apply (bool_decide_unpack _). vm_compute. exact I.
Defined.

(** The window of a store just constructed. *)
Lemma LatestSegments_of_New
    (configDir : result string) (readDir : result (list string))
    (s : Storage.storageImpl) (fuel : nat) (k : Z) :
  Storage.New configDir readDir = Ok s ->
  1 <= k ->
  (Z.to_nat k <= fuel)%nat ->
  exists segs,
    Storage.LatestSegments fuel s k = Some (Returns s segs)
    /\ Z.of_nat (length segs) <= k - 1
    /\ Forall (fun segment =>
                 Storage.lastSegmentID s - k + 1 <= Storage.ID segment
                 < Storage.lastSegmentID s) segs.
Proof.
  intros HNew Hk Hfuel.
  destruct (New_wellFormed _ _ _ HNew) as (Hm & Hkey & _).
  rewrite LatestSegments_returns by (done || lia).
  eexists. split; [reflexivity|].
  set (L := Storage.lastSegmentID s).
  assert (Storage.segments s !! L = None) as HL.
  { destruct (Storage.segments s !! L) as [seg|] eqn:E; [|done].
    pose proof (New_ids_below _ _ _ _ _ HNew E). lia. }
  rewrite (seqZ_snoc _ k) by done. rewrite omap_app.
  replace (L - k + 1 + k - 1) with L by lia.
  rewrite (omap_cons _ L), HL. cbn [omap list_omap]. rewrite app_nil_r.
  split.
  - pose proof (omap_length_le (fun id => Storage.segments s !! id)
                  (seqZ (L - k + 1) (k - 1))) as Hlen.
    rewrite length_seqZ in Hlen. lia.
  - apply Forall_forall. intros seg (id & Hid & Hseg)%list_elem_of_omap.
    apply elem_of_seqZ in Hid. rewrite (Hkey _ _ Hseg). lia.
Qed.

(** X5.  Right after construction [lastID] itself is not in the index, so
    [LatestSegments(k)] with [k >= 1] returns at most [k - 1] segments, and
    their ids lie in [[lastID - k + 1, lastID - 1]]. *)
Theorem LatestSegments_after_New
    (configDir : result string) (readDir : result (list string))
    (s : Storage.storageImpl) (fuel : nat) (k : Z) :
  Storage.New configDir readDir = Ok s ->
  1 <= k ->
  (Z.to_nat k <= fuel)%nat ->
  exists segs,
    Storage.LatestSegments fuel s k = Some (Returns s segs)
    /\ Z.of_nat (length segs) <= k - 1
    /\ Forall (fun segment =>
                 Storage.lastSegmentID s - k + 1 <= Storage.ID segment
                 < Storage.lastSegmentID s) segs.
Proof. exact (LatestSegments_of_New configDir readDir s fuel k). Qed.

Lemma LatestSegments_after_New_witness :
  exists s segs,
    Storage.New (Ok "/home/pi/.pi-camera-go/segments")
      (Ok ["segment_1540000000_5000_3.ts"; "segment_1540000005_5000_4.ts";
           "segment_1540000010_5000_5.ts"]) = Ok s
    /\ Storage.LatestSegments 3 s 3 = Some (Returns s segs)
    /\ Z.of_nat (length segs) <= 3 - 1
    /\ Forall (fun segment =>
                 Storage.lastSegmentID s - 3 + 1 <= Storage.ID segment
                 < Storage.lastSegmentID s) segs.
Proof.
  destruct (Storage.New (Ok "/home/pi/.pi-camera-go/segments")
      (Ok ["segment_1540000000_5000_3.ts"; "segment_1540000005_5000_4.ts";
           "segment_1540000010_5000_5.ts"])) as [s|e] eqn:E;
    [|vm_compute in E; discriminate].
  exists s.
  destruct (LatestSegments_after_New _ _ s 3 3 E) as (segs & H); [lia | vm_compute; lia |].
  exists segs. split; [reflexivity | exact H].
Defined.

(** The window after a successful [addSegment]. *)
Lemma LatestSegments_of_addSegment
    (s s' : Storage.storageImpl) (created modified : GoTime.Time)
    (env : Storage.copyEnv) (fuel : nat) (k : Z) :
  wellFormed s ->
  Storage.addSegment s created modified env = Returns s' None ->
  1 <= k ->
  (Z.to_nat k <= fuel)%nat ->
  exists older new,
    Storage.LatestSegments fuel s (k - 1) = Some (Returns s older)
    /\ Storage.LatestSegments fuel s' k = Some (Returns s' (older ++ [new]))
    /\ Storage.ID new = Storage.lastSegmentID s + 1
    /\ Storage.Time new = created
    /\ Storage.Duration new = GoTime.Sub modified created.
Proof.
  intros (Hm & Hkey & Hb) [[? _]|(_ & _ & _ & ->)]%addSegment_returns Hk Hfuel;
    [done|].
  rewrite !LatestSegments_returns by (done || lia).
  cbn [indexed Storage.lastSegmentID Storage.segments].
  set (L := Storage.lastSegmentID s).
  eexists _, _. split; [reflexivity|].
  rewrite (seqZ_snoc _ k) by done. rewrite omap_app.
  replace (L + 1 - k + 1 + k - 1) with (L + 1) by lia.
  rewrite (omap_cons _ (L + 1)), lookup_insert_eq. cbn [omap list_omap].
  replace (L + 1 - k + 1) with (L - (k - 1) + 1) by lia.
  rewrite (omap_agree _ (fun id => Storage.segments s !! id)).
  - split; [reflexivity|]. done.
  - intros id Hid%elem_of_seqZ. by rewrite lookup_insert_ne by lia.
Qed.

(** X6.  After a successful [addSegment], [LatestSegments(k)] with
    [k >= 1] returns what [LatestSegments(k - 1)] returned before the call,
    followed by the new segment, which carries the id assigned, the time
    [created] and the duration [modified - created]. *)
Theorem LatestSegments_after_addSegment
    (s s' : Storage.storageImpl) (created modified : GoTime.Time)
    (env : Storage.copyEnv) (fuel : nat) (k : Z) :
  wellFormed s ->
  Storage.addSegment s created modified env = Returns s' None ->
  1 <= k ->
  (Z.to_nat k <= fuel)%nat ->
  exists older new,
    Storage.LatestSegments fuel s (k - 1) = Some (Returns s older)
    /\ Storage.LatestSegments fuel s' k = Some (Returns s' (older ++ [new]))
    /\ Storage.ID new = Storage.lastSegmentID s + 1
    /\ Storage.Time new = created
    /\ Storage.Duration new = GoTime.Sub modified created.
Proof. exact (LatestSegments_of_addSegment s s' created modified env fuel k). Qed.

Lemma LatestSegments_after_addSegment_witness :
  let s := storeOf [2; 3; 4] 4 in
  let c := copyCall 1540000100 188000 188000 in
  exists s' older new,
    Storage.addSegment s (callCreated c) (callModified c) (callEnv c)
      = Returns s' None
    /\ Storage.LatestSegments 3 s (3 - 1) = Some (Returns s older)
    /\ Storage.LatestSegments 3 s' 3 = Some (Returns s' (older ++ [new]))
    /\ Storage.ID new = Storage.lastSegmentID s + 1
    /\ Storage.Time new = callCreated c
    /\ Storage.Duration new = GoTime.Sub (callModified c) (callCreated c).
Proof.
  intros s c. eexists.
  assert (wellFormed s) as Hwf.
  { split; [reflexivity|]. split.
    - apply keyed_by_map_Forall. apply (bool_decide_unpack _). vm_compute. exact I.
    - apply bounded_by_map_Forall. apply (bool_decide_unpack _). vm_compute. exact I. }
  destruct (LatestSegments_after_addSegment s _ (callCreated c) (callModified c)
              (callEnv c) 3 3 Hwf eq_refl) as (older & new & H);
    [lia | vm_compute; lia |].
  exists older, new. split; [reflexivity | exact H].
Defined.

(** * Further properties of the live playlist *)

Section MorePlaylistFacts.
Import Storage Server.
Variable formatSeconds : Z -> string.

Lemma gaps_cons a b rest :
  gaps (a :: b :: rest)
  = ((if decide (b = a + 1)%Z then 0 else 1) + gaps (b :: rest))%nat.
Proof. reflexivity. Qed.

(** The markers written for a window, given the id before it. *)
Lemma markers_writeSegments segs : forall prev,
  markers (writeSegments formatSeconds prev segs) = gaps (prev :: (ID <$> segs)).
Proof.
  induction segs as [|s segs IH]; intros prev; [done|].
  rewrite fmap_cons, gaps_cons. cbn [writeSegments].
  rewrite markers_app, <- IH.
  change ([extinfLine formatSeconds s; uriLine s]
            ++ writeSegments formatSeconds (ID s) segs)
    with (extinfLine formatSeconds s
            :: uriLine s :: writeSegments formatSeconds (ID s) segs).
  rewrite markers_cons_other by apply extinf_not_marker.
  rewrite markers_cons_other by apply uri_not_marker.
  f_equal. destruct (Z.eqb_spec (ID s) (prev + 1)) as [E|E].
  - by rewrite decide_True.
  - rewrite decide_False by done. cbn [negb]. by rewrite markers_cons_marker.
Qed.

Lemma length_writeSegments segs : forall prev,
  length (writeSegments formatSeconds prev segs)
  = (2 * length segs + markers (writeSegments formatSeconds prev segs))%nat.
Proof.
  induction segs as [|s segs IH]; intros prev; [done|].
  cbn [writeSegments]. rewrite markers_app, !length_app, IH.
  change ([extinfLine formatSeconds s; uriLine s]
            ++ writeSegments formatSeconds (ID s) segs)
    with (extinfLine formatSeconds s
            :: uriLine s :: writeSegments formatSeconds (ID s) segs).
  rewrite markers_cons_other by apply extinf_not_marker.
  rewrite markers_cons_other by apply uri_not_marker.
  destruct (negb (ID s =? prev + 1)); cbn [length].
  - rewrite markers_cons_marker. change (markers []) with 0%nat. lia.
  - change (markers []) with 0%nat. lia.
Qed.

(** What is written for a window and one more segment. *)
Lemma writeSegments_snoc segs x : forall prev,
  writeSegments formatSeconds prev (segs ++ [x]) =
  writeSegments formatSeconds prev segs
  ++ entry formatSeconds (default prev (last (ID <$> segs))) x.
Proof.
  induction segs as [|s segs IH]; intros prev.
  - cbn [app writeSegments fmap list_fmap last default]. unfold entry.
    destruct (Z.eqb_spec (ID x) (prev + 1)) as [E|E].
    + by rewrite decide_True.
    + by rewrite decide_False.
  - cbn [app writeSegments]. rewrite IH, fmap_cons, last_cons.
    rewrite <- !app_assoc. do 3 f_equal.
    by destruct (last (ID <$> segs)).
Qed.

End MorePlaylistFacts.

(** X7.  The target duration written is never negative and is at least
    the duration of every segment of the window in whole seconds. *)
Theorem target_duration_upper_bound
    (formatSeconds : Z -> string) (segs : list Storage.Segment) (txt : bool) :
  exists target,
    Server.body (Server.writePlaylist formatSeconds segs txt) !! 1%nat
      = Some (Server.targetDurationLine target)
    /\ 0 <= target
    /\ Forall (fun segment =>
                 Z.quot (Storage.Duration segment) GoTime.Second <= target) segs.
Proof.
  rewrite writePlaylist_body. eexists. split; [reflexivity|].
  assert (0 <= foldr Z.max 0 (Storage.Duration <$> segs)) as H0.
  { generalize (Storage.Duration <$> segs). intros l.
    induction l as [|d l IH]; simpl; lia. }
  split.
  - apply Z.quot_pos; [done | unfold GoTime.Second; lia].
  - apply Forall_forall. intros seg Hseg.
    apply Z.quot_le_mono; [unfold GoTime.Second; lia|].
    apply foldr_max_upper. apply list_elem_of_fmap. eauto.
Qed.

(** X8.  For a window whose first segment's id is not 0, the number of
    discontinuity markers in the playlist is the number of places where an
    id is not the id before it plus one, and the playlist has three header
    lines, two lines for each segment and one for each marker. *)
Theorem playlist_markers_count_gaps
    (formatSeconds : Z -> string)
    (first : Storage.Segment) (rest : list Storage.Segment) (txt : bool) :
  Storage.ID first <> 0 ->
  markers (Server.body (Server.writePlaylist formatSeconds (first :: rest) txt))
  = gaps (Storage.ID <$> first :: rest)
  /\ length (Server.body (Server.writePlaylist formatSeconds (first :: rest) txt))
     = (3 + 2 * length (first :: rest) + gaps (Storage.ID <$> first :: rest))%nat.
Proof.
  intros Hid. rewrite writePlaylist_body, firstNonZeroID_head by done.
  assert (markers (Server.writeSegments formatSeconds (Storage.ID first - 1)
                     (first :: rest))
          = gaps (Storage.ID <$> first :: rest)) as Hm.
  { rewrite markers_writeSegments, fmap_cons, gaps_cons.
    rewrite decide_True by lia. reflexivity. }
  split.
  - rewrite markers_app, Hm.
    cbn [app]. rewrite (markers_cons_other _ _ header_not_marker).
    rewrite (markers_cons_other _ _ (targetDuration_not_marker _)).
    rewrite (markers_cons_other _ _ (mediaSequence_not_marker _)).
    reflexivity.
  - rewrite length_app, length_writeSegments, Hm. reflexivity.
Qed.

Lemma playlist_markers_count_gaps_witness :
  let window := exampleSegment <$> [3; 4; 6; 9; 10] in
  markers (Server.body (Server.writePlaylist sixDecimals window false)) = 2%nat
  /\ length (Server.body (Server.writePlaylist sixDecimals window false)) = 15%nat.
Proof.
  intros window.
  exact (playlist_markers_count_gaps sixDecimals (exampleSegment 3)
           (exampleSegment <$> [4; 6; 9; 10]) false
           ltac:(vm_compute; discriminate)).
Defined.

Section RunFacts.
Import Storage.

Lemma lastStore_cons s x run : lastStore s (x :: run) = lastStore (snd x) run.
Proof. unfold lastStore. rewrite last_cons. by destruct (last run). Qed.

(** The store after calls that all returned [nil]. *)
Lemma addSegments_final calls : forall s,
  wellFormed s ->
  length (addSegments s calls) = length calls ->
  Forall (fun x => fst x = None) (addSegments s calls) ->
  wellFormed (lastStore s (addSegments s calls))
  /\ lastSegmentID (lastStore s (addSegments s calls))
     = lastSegmentID s + Z.of_nat (length calls)
  /\ (forall id segment,
        segments s !! id = Some segment ->
        segments (lastStore s (addSegments s calls)) !! id = Some segment)
  /\ (forall id,
        lastSegmentID s < id <= lastSegmentID s + Z.of_nat (length calls) ->
        is_Some (segments (lastStore s (addSegments s calls)) !! id)).
Proof.
  induction calls as [|c calls IH]; intros s Hwf Hlen Hall.
  - unfold lastStore. cbn.
    split; [done|]. split; [lia|]. split; [done|]. intros id ?. lia.
  - cbn [addSegments] in *.
    destruct (addSegment s (callCreated c) (callModified c) (callEnv c))
      as [s1 r| |] eqn:E; [|done..].
    cbn [length] in Hlen. apply Forall_cons in Hall as [Hr Hall].
    simpl in Hr. subst r.
    pose proof (addSegment_wellFormed _ _ _ _ _ _ Hwf E) as Hwf1.
    destruct (addSegment_fresh _ _ _ _ _ Hwf E) as (HL & Hfresh & Hkeep & _).
    rewrite lastStore_cons. cbn [snd].
    destruct (IH s1 Hwf1 ltac:(lia) Hall) as (Hwff & HLf & Hkeepf & Hnew).
    split; [done|]. split; [cbn [length]; lia|]. split.
    + intros id seg H. by apply Hkeepf, Hkeep.
    + intros id Hid. cbn [length] in Hid.
      destruct (decide (id = lastSegmentID s1)) as [->|Hne].
      * apply addSegment_returns in E as [[? _]|(_ & _ & _ & ->)]; [done|].
        eexists. apply Hkeepf. cbn [indexed segments lastSegmentID].
        apply lookup_insert_eq.
      * apply Hnew. lia.
Qed.

Lemma filter_all {A} (P : A -> Prop) `{!forall x, Decision (P x)} (l : list A) :
  Forall P l -> filter P l = l.
Proof.
  induction 1 as [|x l Hx Hl IH]; [done|].
  by rewrite filter_cons, decide_True, IH.
Qed.

End RunFacts.

(** X9.  After [n] calls of [addSegment] that all returned [nil] on a store
    in the state between calls whose [lastID] is not negative,
    [LatestSegments(k)] with [1 <= k <= n] returns the last [k] segments
    added, with consecutive ids, and the playlist written for them has the
    first of these ids as media sequence and no discontinuity marker. *)
Theorem added_segments_play_without_gap
    (formatSeconds : Z -> string) (s : Storage.storageImpl) (calls : list call)
    (fuel : nat) (k : Z) (txt : bool) :
  wellFormed s ->
  0 <= Storage.lastSegmentID s ->
  length (addSegments s calls) = length calls ->
  Forall (fun x => fst x = None) (addSegments s calls) ->
  1 <= k <= Z.of_nat (length calls) ->
  (Z.to_nat k <= fuel)%nat ->
  exists window,
    Storage.LatestSegments fuel (lastStore s (addSegments s calls)) k
      = Some (Returns (lastStore s (addSegments s calls)) window)
    /\ Storage.ID <$> window
       = seqZ (Storage.lastSegmentID s + Z.of_nat (length calls) - k + 1) k
    /\ Server.body (Server.writePlaylist formatSeconds window txt) =
         [ "#EXTM3U" +:+ Server.nl;
           Server.targetDurationLine
             (Z.quot (foldr Z.max 0 (Storage.Duration <$> window)) GoTime.Second);
           Server.mediaSequenceLine
             (Storage.lastSegmentID s + Z.of_nat (length calls) - k + 1) ]
         ++ plainEntries formatSeconds window.
Proof.
  intros Hwf HL Hlen Hall Hk Hfuel.
  destruct (addSegments_final calls s Hwf Hlen Hall)
    as ((Hm & Hkey & Hb) & HLf & _ & Hnew).
  set (f := lastStore s (addSegments s calls)) in *.
  set (n := Z.of_nat (length calls)) in *.
  rewrite LatestSegments_returns by (done || lia).
  eexists. split; [reflexivity|].
  assert (Storage.ID <$> omap (fun id => Storage.segments f !! id)
                           (seqZ (Storage.lastSegmentID f - k + 1) k)
          = seqZ (Storage.lastSegmentID s + n - k + 1) k) as Hids.
  { rewrite (keyed_ids _ _ Hkey), HLf. apply filter_all.
    apply Forall_forall. intros id Hid%elem_of_seqZ. apply Hnew. lia. }
  split; [exact Hids|].
  rewrite writePlaylist_body.
  destruct (omap (fun id => Storage.segments f !! id)
              (seqZ (Storage.lastSegmentID f - k + 1) k)) as [|w window] eqn:E.
  { rewrite seqZ_cons in Hids by lia. discriminate. }
  assert (Storage.ID w = Storage.lastSegmentID s + n - k + 1) as Hw.
  { rewrite seqZ_cons in Hids by lia. by injection Hids. }
  rewrite firstNonZeroID_head by lia. rewrite Hw. f_equal.
  apply writeSegments_contiguous.
  replace (Storage.lastSegmentID s + n - k + 1 - 1 + 1)
    with (Storage.lastSegmentID s + n - k + 1) by lia.
  rewrite Hids. f_equal.
  apply (f_equal length) in Hids. rewrite length_fmap, length_seqZ in Hids. lia.
Qed.

Lemma added_segments_play_without_gap_witness :
  let s := storeOf [] 1 in
  let calls := [copyCall 1540000000 188000 188000;
                copyCall 1540000005 188000 188000;
                copyCall 1540000010 376000 376000;
                copyCall 1540000015 188000 188000] in
  exists window,
    Storage.LatestSegments 3 (lastStore s (addSegments s calls)) 3
      = Some (Returns (lastStore s (addSegments s calls)) window)
    /\ Storage.ID <$> window
       = seqZ (Storage.lastSegmentID s + Z.of_nat (length calls) - 3 + 1) 3
    /\ Server.body (Server.writePlaylist sixDecimals window false) =
         [ "#EXTM3U" +:+ Server.nl;
           Server.targetDurationLine
             (Z.quot (foldr Z.max 0 (Storage.Duration <$> window)) GoTime.Second);
           Server.mediaSequenceLine
             (Storage.lastSegmentID s + Z.of_nat (length calls) - 3 + 1) ]
         ++ plainEntries sixDecimals window.
Proof.
  intros s calls.
  apply (added_segments_play_without_gap sixDecimals s calls 3 3 false).
  - split; [reflexivity|]. split.
    + apply keyed_by_map_Forall. apply (bool_decide_unpack _). vm_compute. exact I.
    + apply bounded_by_map_Forall. apply (bool_decide_unpack _). vm_compute. exact I.
  - vm_compute. discriminate.
  - reflexivity.
  - repeat constructor.
  - vm_compute. split; discriminate.
  - vm_compute. lia.
Defined.

(** X10.  The id that every construction of the store skips shows in the
    playlist: after the first successful [addSegment] on a store just
    constructed, when the window of [LatestSegments(k)] holds an older
    segment besides the new one, a discontinuity marker is written
    immediately before the entry of the new segment, which is the last
    entry of the playlist. *)
Theorem restart_is_a_discontinuity
    (formatSeconds : Z -> string)
    (configDir : result string) (readDir : result (list string))
    (s s' : Storage.storageImpl) (created modified : GoTime.Time)
    (env : Storage.copyEnv) (fuel : nat) (k : Z) (txt : bool) :
  Storage.New configDir readDir = Ok s ->
  Storage.addSegment s created modified env = Returns s' None ->
  2 <= k ->
  (Z.to_nat k <= fuel)%nat ->
  exists older new,
    Storage.LatestSegments fuel s' k = Some (Returns s' (older ++ [new]))
    /\ Storage.ID new = Storage.lastSegmentID s + 1
    /\ (older <> [] ->
        exists lines,
          Server.body (Server.writePlaylist formatSeconds (older ++ [new]) txt)
          = lines ++ [Server.discontinuityLine;
                      Server.extinfLine formatSeconds new;
                      Server.uriLine new]).
Proof.
  intros HNew Hadd Hk Hfuel.
  pose proof (New_wellFormed _ _ _ HNew) as Hwf.
  destruct (LatestSegments_of_addSegment s s' created modified env fuel k
              Hwf Hadd ltac:(lia) Hfuel)
    as (older & new & Hold & Hnew & Hid & _).
  destruct (LatestSegments_of_New _ _ s fuel (k - 1) HNew ltac:(lia) ltac:(lia))
    as (older' & Hold' & _ & Hids).
  rewrite Hold in Hold'. injection Hold' as <-.
  exists older, new. split; [done|]. split; [done|].
  intros Hne. rewrite writePlaylist_body, writeSegments_snoc.
  destruct (last older) as [o|] eqn:Hlast; [|by apply last_None in Hlast].
  assert (last (Storage.ID <$> older) = Some (Storage.ID o)) as ->.
  { apply last_Some in Hlast as [l' ->]. rewrite fmap_app.
    exact (last_snoc (Storage.ID o) (Storage.ID <$> l')). }
  assert (Storage.ID o < Storage.lastSegmentID s) as Ho.
  { rewrite Forall_forall in Hids. apply Hids.
    apply last_Some in Hlast as [l' ->]. set_solver. }
  change (default (firstNonZeroID (older ++ [new]) - 1) (Some (Storage.ID o)))
    with (Storage.ID o).
  unfold entry. rewrite decide_False by lia.
  eexists. rewrite app_assoc. reflexivity.
Qed.

Lemma restart_is_a_discontinuity_witness :
  let c := copyCall 1540000100 188000 188000 in
  exists s s' older new lines,
    Storage.New (Ok "/home/pi/.pi-camera-go/segments")
      (Ok ["segment_1540000000_5000_2.ts"; "segment_1540000005_5000_3.ts"]) = Ok s
    /\ Storage.addSegment s (callCreated c) (callModified c) (callEnv c)
       = Returns s' None
    /\ Storage.LatestSegments 3 s' 3 = Some (Returns s' (older ++ [new]))
    /\ Storage.ID new = 5
    /\ Server.body (Server.writePlaylist sixDecimals (older ++ [new]) false)
       = lines ++ [Server.discontinuityLine;
                   Server.extinfLine sixDecimals new;
                   Server.uriLine new].
Proof.
  intros c.
  destruct (Storage.New (Ok "/home/pi/.pi-camera-go/segments")
      (Ok ["segment_1540000000_5000_2.ts"; "segment_1540000005_5000_3.ts"]))
    as [s|e] eqn:E; [|vm_compute in E; discriminate].
  destruct (Storage.addSegment s (callCreated c) (callModified c) (callEnv c))
    as [s' [r|]| |] eqn:Ea;
    try (exfalso; injection E as <-; vm_compute in Ea; discriminate).
  destruct (restart_is_a_discontinuity sixDecimals _ _ s s' _ _ _ 3 3 false E Ea)
    as (older & new & Hret & Hid & Hbody); [lia | vm_compute; lia |].
  assert (older <> []) as Hne.
  { intros ->. injection E as <-. injection Ea as <-.
    vm_compute in Hret. discriminate. }
  destruct (Hbody Hne) as (lines & Hlines).
  exists s, s', older, new, lines.
  split; [reflexivity|]. split; [exact Ea|]. split; [exact Hret|].
  split; [|exact Hlines].
  rewrite Hid. injection E as <-. reflexivity.
Defined.

(** * Further properties of the capture monitor *)

Section MoreRecorderFacts.
Import GoStrings Recorder.

(** A listing has every entry of the directory. *)
Lemma ReadDir_complete env dir w w' listing path name :
  ReadDir env dir w = (w', Ok listing) ->
  path ∈ files w -> entryOf dir path = Some name -> name ∈ listing.
Proof.
  unfold ReadDir. destruct (readDirErr env) as [e|]; [done|].
  intros [= <- <-] Hp He. rewrite merge_sort_Permutation.
  apply list_elem_of_omap. exists path. split; [by apply elem_of_elements | done].
Qed.

Lemma ReadDir_origin env dir w w' listing name :
  ReadDir env dir w = (w', Ok listing) ->
  name ∈ listing ->
  exists path, path ∈ files w /\ entryOf dir path = Some name.
Proof.
  unfold ReadDir. destruct (readDirErr env) as [e|]; [done|].
  intros [= <- <-]. rewrite merge_sort_Permutation.
  intros (p & Hp & E)%list_elem_of_omap. exists p.
  split; [by apply elem_of_elements | done].
Qed.

Lemma ReadDir_same_world env dir w w' r :
  ReadDir env dir w = (w', r) -> w' = w.
Proof. unfold ReadDir. destruct (readDirErr env); by intros [= <- _]. Qed.

Lemma Remove_rec env path w w' r : Remove env path w = (w', r) -> rec w' = rec w.
Proof.
  unfold Remove. destruct (decide _); [|by intros [= <- _]].
  destruct (removeErr env path); by intros [= <- _].
Qed.

(** The loop of [deleteFiles], whatever it returns, leaves the recorder as
    it was. *)
Lemma purge_rec env dir l : forall w w' r,
  forEach l (fun name =>
    if negb (HasSuffix name ".h264") then ret tt
    else Remove env (pathJoin dir name)) w = (w', r) ->
  rec w' = rec w.
Proof.
  induction l as [|x l IH]; intros w w' r; [by intros [= <- _]|].
  cbn [forEach]. unfold bind at 1.
  destruct (negb (HasSuffix x ".h264")).
  - unfold ret at 1. apply IH.
  - destruct (Remove env (pathJoin dir x) w) as [w1 [[]|e]] eqn:E.
    + intros H%IH. rewrite H. by eapply Remove_rec.
    + intros [= <- _]. by eapply Remove_rec.
Qed.

(** The loop of [deleteFiles] when it returns without error. *)
Lemma purge_ok env dir l : forall w w',
  forEach l (fun name =>
    if negb (HasSuffix name ".h264") then ret tt
    else Remove env (pathJoin dir name)) w = (w', Ok tt) ->
  files w' = files w ∖ list_to_set (pathJoin dir <$> rawChunks l)
  /\ trace w' = trace w ++ (EvRemove <$> (pathJoin dir <$> rawChunks l)).
Proof.
  induction l as [|x l IH]; intros w w'.
  - intros [= <-]. cbn. rewrite app_nil_r. split; [set_solver | done].
  - cbn [forEach]. unfold bind at 1. unfold rawChunks. rewrite filter_cons.
    fold (rawChunks l).
    destruct (HasSuffix x ".h264") eqn:Hx; cbn [negb].
    + rewrite decide_True by done.
      unfold Remove at 1. destruct (decide (pathJoin dir x ∈ files w)); [|done].
      destruct (removeErr env (pathJoin dir x)); [done|].
      intros [Hf Ht]%IH. cbn [files trace] in *. rewrite Hf, Ht.
      split; [|by rewrite <- app_assoc].
      rewrite fmap_cons. cbn [list_to_set foldr]. set_solver.
    + rewrite decide_False by congruence. unfold ret at 1. apply IH.
Qed.

Lemma deleteFiles_rec env w w' r : deleteFiles env w = (w', r) -> rec w' = rec w.
Proof.
  unfold deleteFiles, bind, getRecorder.
  destruct (ReadDir env (recorderDir (rec w)) w) as [w1 [listing|e]] eqn:E.
  - apply ReadDir_same_world in E as ->. apply purge_rec.
  - apply ReadDir_same_world in E as ->. by intros [= <- _].
Qed.

End MoreRecorderFacts.

(** X11.  When [deleteFiles] returns without error, no raw chunk is left
    in the working directory and nothing else has changed: a file is there
    afterwards exactly when it was there before and is not an entry of the
    working directory whose name ends in [.h264]; the recorder is as it
    was. *)
Theorem deleteFiles_purges_raw_chunks
    (env : Recorder.osEnv) (w w' : Recorder.world) :
  Recorder.deleteFiles env w = (w', Ok tt) ->
  Recorder.rec w' = Recorder.rec w
  /\ forall path,
       path ∈ Recorder.files w' <->
       path ∈ Recorder.files w
       /\ ~ exists name,
              Recorder.entryOf (Recorder.recorderDir (Recorder.rec w)) path
                = Some name
              /\ GoStrings.HasSuffix name ".h264" = true.
Proof.
  intros H. split; [by eapply deleteFiles_rec|].
  unfold Recorder.deleteFiles, Recorder.bind, Recorder.getRecorder in H.
  destruct (Recorder.ReadDir env (Recorder.recorderDir (Recorder.rec w)) w)
    as [w1 [listing|e]] eqn:E; [|done].
  pose proof (ReadDir_same_world _ _ _ _ _ E) as ->.
  apply purge_ok in H as [Hf _]. intros path. rewrite Hf.
  rewrite elem_of_difference, elem_of_list_to_set, list_elem_of_fmap.
  split; intros [Hin Hno]; (split; [done|]).
  - intros (name & He & Hs). apply Hno. exists name.
    split; [by apply entryOf_Some in He|].
    apply list_elem_of_filter. split; [done|]. by eapply ReadDir_complete.
  - intros (name & -> & [Hs Hl]%list_elem_of_filter). apply Hno.
    exists name. split; [|done].
    destruct (ReadDir_origin _ _ _ _ _ _ E Hl) as (p & Hp & He).
    by rewrite <- (entryOf_Some _ _ _ He).
Qed.

Lemma deleteFiles_purges_raw_chunks_witness :
  let w := worldOf [Recorder.chunkName 7; "notes.txt"; Recorder.chunkName 8] in
  exists w',
    Recorder.deleteFiles calmEnv w = (w', Ok tt)
    /\ Recorder.rec w' = Recorder.rec w
    /\ forall path,
         path ∈ Recorder.files w' <->
         path ∈ Recorder.files w
         /\ ~ exists name,
                Recorder.entryOf (Recorder.recorderDir (Recorder.rec w)) path
                  = Some name
                /\ GoStrings.HasSuffix name ".h264" = true.
Proof.
  intros w.
  destruct (Recorder.deleteFiles calmEnv w) as [w' [[]|e]] eqn:E;
    [|vm_compute in E; discriminate].
  exists w'. split; [reflexivity|].
  exact (deleteFiles_purges_raw_chunks calmEnv w w' E).
Defined.

(** X12.  A [Start] that returns an error leaves the recorder as it was,
    with the handles it had: it is not running afterwards. *)
Theorem Start_failure_keeps_recorder
    (env : Recorder.osEnv) (w w' : Recorder.world) (e : error) :
  Recorder.Start env w = (w', Err e) ->
  Recorder.rec w' = Recorder.rec w.
Proof.
  unfold Recorder.Start, Recorder.bind.
  destruct (Recorder.deleteFiles env w) as [w1 [[]|e1]] eqn:E.
  - unfold Recorder.getRecorder. destruct (Recorder.startErr env) as [e2|].
    + unfold Recorder.fail. intros [= <- _]. by eapply deleteFiles_rec.
    + unfold Recorder.emit, Recorder.setRecorder. discriminate.
  - intros [= <- _]. by eapply deleteFiles_rec.
Qed.

Lemma Start_failure_keeps_recorder_witness :
  let env := {| Recorder.readDirErr := None;
                Recorder.ffmpegErr := fun _ => None;
                Recorder.removeErr := fun _ => None;
                Recorder.now := fun _ => GoTime.mkTime 1540000000 0;
                Recorder.startErr := Some (ErrOS 2);
                Recorder.waitErr := None |} in
  let w := worldOf [Recorder.chunkName 7; "notes.txt"] in
  exists w',
    Recorder.Start env w = (w', Err (ErrOS 2))
    /\ Recorder.rec w' = Recorder.rec w.
Proof.
  intros env w.
  destruct (Recorder.Start env w) as [w' [[]|e]] eqn:E;
    [vm_compute in E; discriminate|].
  assert (e = ErrOS 2) as -> by (vm_compute in E; congruence).
  exists w'. split; [reflexivity|].
  exact (Start_failure_keeps_recorder env w w' (ErrOS 2) E).
Defined.

(** X13.  [Stop] on a recorder that was never started panics: the
    recorder that [New] builds has no cancel function to call. *)
Theorem Stop_before_Start_panics
    (configDir : result string) (r : Recorder.recorderImpl)
    (env : Recorder.osEnv) (fs : gset string) (tr : list Recorder.event) :
  Recorder.New configDir = Ok r ->
  Recorder.Stop env (Recorder.mkWorld r fs tr)
  = Panics (Recorder.mkWorld r fs tr).
Proof.
  unfold Recorder.New. destruct configDir as [dir|e]; [|done].
  intros [= <-]. by apply Stop_stopped.
Qed.

Lemma Stop_before_Start_panics_witness :
  exists r,
    Recorder.New (Ok "/home/pi/.pi-camera-go/recorder") = Ok r
    /\ Recorder.Stop calmEnv (Recorder.mkWorld r ∅ [])
       = Panics (Recorder.mkWorld r ∅ []).
Proof.
  eexists. split; [reflexivity|].
  by apply (Stop_before_Start_panics (Ok "/home/pi/.pi-camera-go/recorder")).
Defined.

Section AbortFacts.
Import GoStrings Recorder.

Lemma forEach_app {A} (a b : list A) (body : A -> M unit) w :
  forEach (a ++ b) body w =
  match forEach a body w with
  | (w1, Ok _) => forEach b body w1
  | (w1, Err e) => (w1, Err e)
  end.
Proof.
  revert w. induction a as [|x a IH]; intros w; [done|].
  cbn [app forEach]. unfold bind.
  destruct (body x w) as [w1 [[]|e]]; [apply IH | done].
Qed.

End AbortFacts.

(** X14.  A conversion that fails ends the drain pass with its error: the
    raw chunks before it in the listing have been converted, handed over
    and removed as usual, and the chunk that failed and the raw chunks
    after it are still on disk, untouched. *)
Theorem checkFiles_stops_at_failed_conversion
    (env : Recorder.osEnv) (w : Recorder.world) (listing : list string)
    (converted later : list string) (failed : string) (e : error) :
  Recorder.ReadDir env (Recorder.recorderDir (Recorder.rec w)) w = (w, Ok listing) ->
  Recorder.allButLast (rawChunks listing) = converted ++ failed :: later ->
  Forall (drainable (Recorder.rec w) env) converted ->
  Forall (fun c => GoStrings.HasSuffix (convertedName c) ".h264" = false)
    converted ->
  Recorder.ffmpegErr env
    (Recorder.pathJoin (Recorder.recorderDir (Recorder.rec w)) failed) = Some e ->
  exists w',
    Recorder.checkFiles env w = (w', Err e)
    /\ Recorder.rec w' = Recorder.rec w
    /\ Recorder.files w' = Recorder.files w ∖ removedBy (Recorder.rec w) converted
    /\ Recorder.trace w' =
         Recorder.trace w ++ flat_map (drainEvents (Recorder.rec w) env) converted
    /\ Forall (fun c =>
                 Recorder.pathJoin (Recorder.recorderDir (Recorder.rec w)) c
                   ∈ Recorder.files w') (failed :: later).
Proof.
  intros Hread Hsplit Hdr Hconv Hfail.
  destruct (ReadDir_listing _ _ _ _ _ Hread) as (_ & Hsorted & Hnd & Hin).
  set (r := Recorder.rec w) in *.
  set (raw := rawChunks listing) in *.
  assert (NoDup raw) as Hrawnd by (by apply NoDup_filter).
  assert (forall c, c ∈ raw ->
            Recorder.pathJoin (Recorder.recorderDir r) c ∈ Recorder.files w
            /\ GoStrings.HasSuffix c ".h264" = true) as Hraw.
  { intros c [Hs Hc]%list_elem_of_filter. split; [by apply Hin | done]. }
  assert (Recorder.allButLast raw `sublist_of` raw) as Hsub by apply sublist_take.
  assert (NoDup (converted ++ failed :: later)) as Hnd2
    by (rewrite <- Hsplit; by eapply sublist_NoDup).
  assert (forall c, c ∈ converted ++ failed :: later -> c ∈ raw) as Hpr.
  { intros c Hc. rewrite <- Hsplit in Hc. by eapply elem_of_sublist. }
  assert ((length raw <? 2)%nat = false) as Hlen.
  { apply Nat.ltb_ge. destruct raw as [|x [|y l]]; simpl; [| |lia].
    - by destruct converted.
    - by destruct converted. }
  rewrite (checkFiles_listing _ _ _ Hread). fold r raw. rewrite Hlen, Hsplit.
  rewrite forEach_app.
  rewrite (drain_all env r converted w); try done.
  - cbn [Recorder.forEach]. unfold Recorder.bind at 1. unfold Recorder.bind at 1.
    unfold Recorder.muxFile, Recorder.bind, Recorder.getRecorder, Recorder.ffmpeg.
    cbn [Recorder.rec Recorder.files Recorder.trace].
    assert (forall c, c ∈ failed :: later ->
              Recorder.pathJoin (Recorder.recorderDir r) c
                ∈ Recorder.files w ∖ removedBy r converted) as Hleft.
    { intros c Hc. apply elem_of_difference. split.
      - apply Hraw, Hpr. set_solver.
      - apply NoDup_app in Hnd2 as (_ & Hdis & _).
        unfold removedBy.
        rewrite elem_of_union, !elem_of_list_to_set, !list_elem_of_fmap.
        intros [(d & Ed & Hd)|(d & Ed & Hd)]; apply pathJoin_inj in Ed.
        + subst d. by apply (Hdis c).
        + rewrite Forall_forall in Hconv. specialize (Hconv d Hd).
          assert (GoStrings.HasSuffix c ".h264" = true)
            by (apply Hraw, Hpr; set_solver).
          congruence. }
    rewrite decide_True by (apply Hleft; by left).
    rewrite Hfail. eexists. split; [reflexivity|].
    cbn [Recorder.rec Recorder.files Recorder.trace].
    do 3 (split; [reflexivity|]).
    apply Forall_forall. exact Hleft.
  - by apply NoDup_app in Hnd2 as (? & _).
  - intros c Hc. apply Hraw, Hpr. set_solver.
  - apply Forall_forall. intros c Hc. apply Hraw, Hpr. set_solver.
Qed.

Lemma checkFiles_stops_at_failed_conversion_witness :
  let w := worldOf [Recorder.chunkName 0; Recorder.chunkName 1;
                    Recorder.chunkName 2; Recorder.chunkName 3] in
  let dir := Recorder.recorderDir (Recorder.rec w) in
  let env := failingEnv (Recorder.pathJoin dir (Recorder.chunkName 1)) in
  exists w',
    Recorder.checkFiles env w = (w', Err (ErrOS 1))
    /\ Recorder.rec w' = Recorder.rec w
    /\ Recorder.files w' =
         Recorder.files w ∖ removedBy (Recorder.rec w) [Recorder.chunkName 0]
    /\ Recorder.trace w' =
         Recorder.trace w
           ++ flat_map (drainEvents (Recorder.rec w) env) [Recorder.chunkName 0]
    /\ Forall (fun c => Recorder.pathJoin dir c ∈ Recorder.files w')
         [Recorder.chunkName 1; Recorder.chunkName 2].
Proof.
  intros w dir env.
  apply (checkFiles_stops_at_failed_conversion env w
           [Recorder.chunkName 0; Recorder.chunkName 1;
            Recorder.chunkName 2; Recorder.chunkName 3]
           [Recorder.chunkName 0] [Recorder.chunkName 2]
           (Recorder.chunkName 1) (ErrOS 1)).
  - vm_compute. reflexivity.
  - vm_compute. reflexivity.
  - vm_compute. repeat constructor.
  - vm_compute. repeat constructor.
  - vm_compute. reflexivity.
Defined.

Section StartFacts.
Import GoStrings Recorder.

Lemma launches_app a b : launches (a ++ b) = (launches a + launches b)%nat.
Proof. unfold launches. by rewrite filter_app, length_app. Qed.

Lemma cancellations_app a b :
  cancellations (a ++ b) = (cancellations a + cancellations b)%nat.
Proof. unfold cancellations. by rewrite filter_app, length_app. Qed.

Lemma launches_removes (paths : list string) : launches (EvRemove <$> paths) = 0%nat.
Proof.
  induction paths as [|p paths IH]; [done|].
  unfold launches in *. rewrite fmap_cons, filter_cons. cbn [isLaunch].
  by rewrite decide_False.
Qed.

Lemma cancellations_removes (paths : list string) :
  cancellations (EvRemove <$> paths) = 0%nat.
Proof.
  induction paths as [|p paths IH]; [done|].
  unfold cancellations in *. rewrite fmap_cons, filter_cons. cbn [isCancel].
  by rewrite decide_False.
Qed.

(** What a [Start] that returns without error has done: it has removed
    raw chunks, launched one process, and it holds the handles of that
    process. *)
Lemma Start_ok env w w' :
  Start env w = (w', Ok tt) ->
  exists removed c,
    trace w' = trace w ++ (EvRemove <$> removed) ++ [EvStartProcess c]
    /\ cancelFunc (rec w') = Some (cancelOf c)
    /\ cmd (rec w') = Some c.
Proof.
  unfold Start. unfold bind at 1.
  destruct (deleteFiles env w) as [w1 [[]|e1]] eqn:E; [|done].
  unfold bind at 1. unfold getRecorder at 1.
  destruct (startErr env) as [e2|]; [done|].
  unfold bind, emit, setRecorder. intros [= <-]. cbn [trace rec cancelFunc cmd].
  unfold deleteFiles, bind, getRecorder in E.
  destruct (ReadDir env (recorderDir (rec w)) w) as [w0 [listing|e]] eqn:Er; [|done].
  pose proof (ReadDir_same_world _ _ _ _ _ Er) as ->.
  apply purge_ok in E as [_ Ht]. rewrite Ht.
  eexists _, _. split; [by rewrite <- app_assoc|]. done.
Qed.

End StartFacts.

(** X15.  [Start] does not look at whether the recorder is running.  A
    second [Start] launches a second capture process and replaces the
    handles, so that the [Stop] that follows cancels one process only: two
    launches, one cancellation. *)
Theorem Start_twice_leaves_a_process
    (env1 env2 env3 : Recorder.osEnv) (w0 w1 w2 : Recorder.world) :
  Recorder.Start env1 w0 = (w1, Ok tt) ->
  Recorder.Start env2 w1 = (w2, Ok tt) ->
  exists w3,
    Recorder.Stop env3 w2 = Returns w3 (Recorder.waitErr env3)
    /\ launches (Recorder.trace w3) = (launches (Recorder.trace w0) + 2)%nat
    /\ cancellations (Recorder.trace w3)
       = (cancellations (Recorder.trace w0) + 1)%nat.
Proof.
  intros (rm1 & c1 & Ht1 & _ & _)%Start_ok (rm2 & c2 & Ht2 & Hf & Hc)%Start_ok.
  rewrite (Stop_started env3 w2 _ _ Hf Hc). eexists. split; [reflexivity|].
  cbn [Recorder.trace]. rewrite Ht2, Ht1.
  rewrite !launches_app, !cancellations_app, !launches_removes,
    !cancellations_removes.
  change (launches [Recorder.EvStartProcess c1]) with 1%nat.
  change (launches [Recorder.EvStartProcess c2]) with 1%nat.
  change (launches [Recorder.EvCancel (Recorder.cancelOf c2); Recorder.EvWait c2])
    with 0%nat.
  change (cancellations [Recorder.EvStartProcess c1]) with 0%nat.
  change (cancellations [Recorder.EvStartProcess c2]) with 0%nat.
  change (cancellations [Recorder.EvCancel (Recorder.cancelOf c2);
                         Recorder.EvWait c2]) with 1%nat.
  lia.
Qed.

Lemma Start_twice_leaves_a_process_witness :
  let w0 := worldOf [Recorder.chunkName 7; "notes.txt"] in
  exists w1 w2 w3,
    Recorder.Start calmEnv w0 = (w1, Ok tt)
    /\ Recorder.Start calmEnv w1 = (w2, Ok tt)
    /\ Recorder.Stop calmEnv w2 = Returns w3 (Recorder.waitErr calmEnv)
    /\ launches (Recorder.trace w3) = (launches (Recorder.trace w0) + 2)%nat
    /\ cancellations (Recorder.trace w3)
       = (cancellations (Recorder.trace w0) + 1)%nat.
Proof.
  intros w0.
  destruct (Recorder.Start calmEnv w0) as [w1 [[]|e]] eqn:E1;
    [|vm_compute in E1; discriminate].
  destruct (Recorder.Start calmEnv w1) as [w2 [[]|e]] eqn:E2.
  - destruct (Start_twice_leaves_a_process calmEnv calmEnv calmEnv w0 w1 w2 E1 E2)
      as (w3 & H).
    exists w1, w2, w3. split; [reflexivity|]. split; [exact E2 | exact H].
  - exfalso. vm_compute in E1. injection E1 as <-. vm_compute in E2. discriminate.
Defined.

(** * From the recorder to the store *)

Section PipelineFacts.
Import Storage Pipeline.

(** The duration between a time and that time plus a duration that fits
    64 bits is that duration. *)
Lemma Sub_Add t d :
  GoInt.minInt <= d <= GoInt.maxInt -> GoTime.Sub (GoTime.Add t d) t = d.
Proof.
  intros Hd. unfold GoTime.Sub, GoTime.Add. cbn [GoTime.unixSec GoTime.nsec].
  set (n := GoTime.nsec t + d).
  assert (GoTime.Second <> 0) as HS by (unfold GoTime.Second; lia).
  pose proof (Z.div_mod n GoTime.Second HS) as Hn.
  replace ((GoTime.unixSec t + n / GoTime.Second - GoTime.unixSec t) * GoTime.Second
           + (n mod GoTime.Second - GoTime.nsec t)) with d by (subst n; lia).
  unfold GoInt.saturate.
  destruct (Z.ltb_spec d GoInt.minInt); [lia|].
  destruct (Z.ltb_spec GoInt.maxInt d); [lia|]. done.
Qed.

Lemma indexedChunks_cons r env s c chunks :
  indexedChunks r env s (c :: chunks) =
  indexedChunks r env
    (indexed s (Recorder.now env
                  (Recorder.pathJoin (Recorder.recorderDir r) (convertedName c)))
       (GoTime.Add
          (Recorder.now env
             (Recorder.pathJoin (Recorder.recorderDir r) (convertedName c)))
          (Recorder.segmentDuration r)))
    chunks.
Proof. reflexivity. Qed.

(** The calls that a drain pass makes deliver every chunk to the store. *)
Lemma deliver_drainEvents r env sub copyOf chunks : forall s,
  Recorder.subscribers r = [sub] ->
  Forall (fun c =>
            complete (copyOf (Recorder.pathJoin (Recorder.recorderDir r)
                                (convertedName c)))) chunks ->
  mutex s = false ->
  deliver sub copyOf s (flat_map (drainEvents r env) chunks)
  = Returns (indexedChunks r env s chunks) [].
Proof.
  intros s Hsub. revert s.
  induction chunks as [|c chunks IH]; intros s Hc Hm; [done|].
  apply Forall_cons in Hc as [Hcc Hc].
  cbn [flat_map]. unfold drainEvents at 1. rewrite Hsub.
  cbn [fmap list_fmap app deliver]. rewrite decide_True by done.
  unfold VideoRecorded. rewrite addSegment_complete by done.
  rewrite indexedChunks_cons, IH by done. done.
Qed.

(** What the store holds after it has indexed some chunks. *)
Lemma indexedChunks_spec r env chunks : forall s,
  GoInt.minInt <= Recorder.segmentDuration r <= GoInt.maxInt ->
  mutex s = false ->
  mutex (indexedChunks r env s chunks) = false
  /\ lastSegmentID (indexedChunks r env s chunks)
     = lastSegmentID s + Z.of_nat (length chunks)
  /\ (forall id segment,
        id <= lastSegmentID s ->
        segments s !! id = Some segment ->
        segments (indexedChunks r env s chunks) !! id = Some segment)
  /\ (forall (i : nat) c,
        chunks !! i = Some c ->
        segments (indexedChunks r env s chunks) !! (lastSegmentID s + 1 + Z.of_nat i)
        = Some (recorded r env c (lastSegmentID s + 1 + Z.of_nat i))).
Proof.
  induction chunks as [|c chunks IH]; intros s Hd Hm.
  - cbn. split; [done|]. split; [lia|]. split; [done|]. intros i c H. done.
  - rewrite indexedChunks_cons.
    set (t := Recorder.now env
                (Recorder.pathJoin (Recorder.recorderDir r) (convertedName c))).
    set (s1 := indexed s t (GoTime.Add t (Recorder.segmentDuration r))).
    destruct (IH s1 Hd eq_refl) as (Hm' & HL & Hkeep & Hnew).
    assert (lastSegmentID s1 = lastSegmentID s + 1) as HL1 by reflexivity.
    split; [done|]. split; [cbn [length]; lia|]. split.
    + intros id seg Hid Hseg. apply Hkeep; [lia|].
      unfold s1, indexed. cbn [segments]. by rewrite lookup_insert_ne by lia.
    + intros [|i] c' Hi.
      * injection Hi as <-. replace (lastSegmentID s + 1 + Z.of_nat 0)
          with (lastSegmentID s + 1) by lia.
        apply Hkeep; [lia|]. unfold s1, indexed. cbn [segments].
        rewrite lookup_insert_eq. unfold recorded. fold t.
        by rewrite Sub_Add.
      * cbn in Hi. specialize (Hnew i c' Hi). rewrite HL1 in Hnew.
        replace (lastSegmentID s + 1 + Z.of_nat (S i))
          with (lastSegmentID s + 1 + 1 + Z.of_nat i) by lia.
        exact Hnew.
Qed.

End PipelineFacts.

(** A drain pass in which nothing fails. *)
Lemma checkFiles_drain_pass
    (env : Recorder.osEnv) (w : Recorder.world) (listing : list string) :
  Recorder.ReadDir env (Recorder.recorderDir (Recorder.rec w)) w = (w, Ok listing) ->
  Forall (drainable (Recorder.rec w) env)
    (Recorder.allButLast (rawChunks listing)) ->
  Forall (fun c => GoStrings.HasSuffix (convertedName c) ".h264" = false)
    (Recorder.allButLast (rawChunks listing)) ->
  Recorder.checkFiles env w =
    ({| Recorder.rec := Recorder.rec w;
        Recorder.files :=
          Recorder.files w
            ∖ removedBy (Recorder.rec w) (Recorder.allButLast (rawChunks listing));
        Recorder.trace :=
          Recorder.trace w
            ++ flat_map (drainEvents (Recorder.rec w) env)
                 (Recorder.allButLast (rawChunks listing)) |},
     Ok tt).
Proof.
  intros Hread Hdr Hconv.
  destruct (ReadDir_listing _ _ _ _ _ Hread) as (_ & Hsorted & Hnd & Hin).
  set (r := Recorder.rec w) in *.
  set (raw := rawChunks listing) in *.
  set (processed := Recorder.allButLast raw) in *.
  assert (NoDup raw) as Hrawnd by (by apply NoDup_filter).
  assert (forall c, c ∈ raw ->
            Recorder.pathJoin (Recorder.recorderDir r) c ∈ Recorder.files w
            /\ GoStrings.HasSuffix c ".h264" = true) as Hraw.
  { intros c [Hs Hc]%list_elem_of_filter. split; [by apply Hin | done]. }
  assert (processed `sublist_of` raw) as Hsub by apply sublist_take.
  assert (forall c, c ∈ processed -> c ∈ raw) as Hpr
    by (intros c Hc; by eapply elem_of_sublist).
  rewrite (checkFiles_listing _ _ _ Hread). fold r raw processed.
  destruct (Nat.ltb_spec (length raw) 2) as [Hlt|Hge].
  - unfold processed. rewrite allButLast_short by done.
    unfold removedBy. cbn. rewrite app_nil_r.
    destruct w as [r' fs tr]. f_equal. f_equal. set_solver.
  - apply drain_all; try done.
    + by eapply sublist_NoDup.
    + intros c Hc. by apply Hraw, Hpr.
    + apply Forall_forall. intros c Hc. by apply Hraw, Hpr.
Qed.

(** X16.  From the drain pass to the index.  With the store as the only
    subscriber of the recorder, a drain pass in which nothing fails and
    every copy is complete adds one segment to the store for each raw chunk
    it converts, in the order of the listing and under consecutive ids;
    each of these segments has the time at which the chunk was handed over
    and, as its duration, the segment duration of the recorder, whatever
    the chunk holds; the segments indexed before are still there. *)
Theorem drained_chunks_are_indexed
    (env : Recorder.osEnv) (w : Recorder.world) (listing : list string)
    (subscriber : Recorder.Subscriber) (copyOf : string -> Storage.copyEnv)
    (s : Storage.storageImpl) :
  Recorder.ReadDir env (Recorder.recorderDir (Recorder.rec w)) w = (w, Ok listing) ->
  Forall (drainable (Recorder.rec w) env)
    (Recorder.allButLast (rawChunks listing)) ->
  Forall (fun c => GoStrings.HasSuffix (convertedName c) ".h264" = false)
    (Recorder.allButLast (rawChunks listing)) ->
  Recorder.subscribers (Recorder.rec w) = [subscriber] ->
  Forall (fun c =>
            complete (copyOf (Recorder.pathJoin
                                (Recorder.recorderDir (Recorder.rec w))
                                (convertedName c))))
    (Recorder.allButLast (rawChunks listing)) ->
  GoInt.minInt <= Recorder.segmentDuration (Recorder.rec w) <= GoInt.maxInt ->
  Storage.mutex s = false ->
  exists w' calls s',
    Recorder.checkFiles env w = (w', Ok tt)
    /\ Recorder.trace w' = Recorder.trace w ++ calls
    /\ Pipeline.deliver subscriber copyOf s calls = Returns s' []
    /\ Storage.lastSegmentID s'
       = Storage.lastSegmentID s
         + Z.of_nat (length (Recorder.allButLast (rawChunks listing)))
    /\ (forall (i : nat) c,
          Recorder.allButLast (rawChunks listing) !! i = Some c ->
          Storage.segments s' !! (Storage.lastSegmentID s + 1 + Z.of_nat i)
          = Some (recorded (Recorder.rec w) env c
                    (Storage.lastSegmentID s + 1 + Z.of_nat i)))
    /\ (forall id segment,
          id <= Storage.lastSegmentID s ->
          Storage.segments s !! id = Some segment ->
          Storage.segments s' !! id = Some segment).
Proof.
  intros Hread Hdr Hconv Hsub Hcopies Hd Hm.
  pose proof (checkFiles_drain_pass env w listing Hread Hdr Hconv) as Hrun.
  set (w' := {| Recorder.rec := Recorder.rec w;
                Recorder.files :=
                  Recorder.files w
                    ∖ removedBy (Recorder.rec w)
                        (Recorder.allButLast (rawChunks listing));
                Recorder.trace :=
                  Recorder.trace w
                    ++ flat_map (drainEvents (Recorder.rec w) env)
                         (Recorder.allButLast (rawChunks listing)) |}) in *.
  assert (Recorder.trace w' =
          Recorder.trace w
            ++ flat_map (drainEvents (Recorder.rec w) env)
                 (Recorder.allButLast (rawChunks listing))) as Htrace by done.
  destruct (indexedChunks_spec (Recorder.rec w) env
              (Recorder.allButLast (rawChunks listing)) s Hd Hm)
    as (_ & HL & Hkeep & Hnew).
  exists w', (flat_map (drainEvents (Recorder.rec w) env)
                (Recorder.allButLast (rawChunks listing))),
    (indexedChunks (Recorder.rec w) env s (Recorder.allButLast (rawChunks listing))).
  split; [done|]. split; [done|].
  split; [by apply deliver_drainEvents|]. done.
Qed.

Lemma drained_chunks_are_indexed_witness :
  let w := worldOf [Recorder.chunkName 0; Recorder.chunkName 1;
                    Recorder.chunkName 2; "notes.txt"] in
  let listing := ["notes.txt"; Recorder.chunkName 0; Recorder.chunkName 1;
                  Recorder.chunkName 2] in
  let s := storeOf [2; 3] 3 in
  exists w' calls s',
    Recorder.checkFiles calmEnv w = (w', Ok tt)
    /\ Recorder.trace w' = Recorder.trace w ++ calls
    /\ Pipeline.deliver 0%nat completeCopies s calls = Returns s' []
    /\ Storage.lastSegmentID s'
       = Storage.lastSegmentID s
         + Z.of_nat (length (Recorder.allButLast (rawChunks listing)))
    /\ (forall (i : nat) c,
          Recorder.allButLast (rawChunks listing) !! i = Some c ->
          Storage.segments s' !! (Storage.lastSegmentID s + 1 + Z.of_nat i)
          = Some (recorded (Recorder.rec w) calmEnv c
                    (Storage.lastSegmentID s + 1 + Z.of_nat i)))
    /\ (forall id segment,
          id <= Storage.lastSegmentID s ->
          Storage.segments s !! id = Some segment ->
          Storage.segments s' !! id = Some segment).
Proof.
  intros w listing s.
  apply (drained_chunks_are_indexed calmEnv w listing 0%nat completeCopies s).
  - vm_compute. reflexivity.
  - vm_compute. repeat constructor.
  - vm_compute. repeat constructor.
  - reflexivity.
  - vm_compute. repeat constructor.
  - vm_compute. split; discriminate.
  - reflexivity.
Defined.

(** * The playlist request as a whole *)

(** The window of [LatestSegments] on a store between calls. *)
Lemma LatestSegments_window (fuel : nat) (s : Storage.storageImpl) (k : Z) :
  Storage.mutex s = false ->
  keyed s ->
  0 <= k ->
  (Z.to_nat k <= fuel)%nat ->
  exists segs,
    Storage.LatestSegments fuel s k = Some (Returns s segs)
    /\ Z.of_nat (length segs) <= k
    /\ Forall (fun segment =>
                 Storage.lastSegmentID s - k + 1 <= Storage.ID segment
                 <= Storage.lastSegmentID s) segs.
Proof.
  intros Hm Hk Hk0 Hfuel.
  eexists. split; [by apply LatestSegments_returns|].
  set (L := Storage.lastSegmentID s).
  assert (Hids := keyed_ids (Storage.segments s) (seqZ (L - k + 1) k) Hk).
  split.
  - pose proof (omap_length_le (fun id => Storage.segments s !! id)
                  (seqZ (L - k + 1) k)) as Hlen.
    rewrite length_seqZ in Hlen. lia.
  - apply Forall_forall. intros seg Hseg.
    assert (Storage.ID seg ∈ (Storage.ID <$> omap (fun id => Storage.segments s !! id)
                                   (seqZ (L - k + 1) k))) as Hi
      by (apply list_elem_of_fmap; eauto).
    rewrite Hids, list_elem_of_filter, elem_of_seqZ in Hi. lia.
Qed.

(** X17.  A playlist request does not change the store, and the playlist
    it writes lists at most [max(3, 10 s / d)] segments, [d] being the
    segment duration of the recorder, all with ids among the last that many
    up to [lastID].  With the recorder that [New] builds (5 s) these are at
    most 3 segments. *)
Theorem playlist_window_is_bounded
    (formatSeconds : Z -> string) (fuel : nat) (s : Storage.storageImpl)
    (segmentDuration : Z) (txt : bool) :
  Storage.mutex s = false ->
  keyed s ->
  segmentDuration <> 0 ->
  (Z.to_nat (Z.max 3 (Z.quot (10 * GoTime.Second) segmentDuration)) <= fuel)%nat ->
  (exists window,
     Server.serveLivePlaylist formatSeconds fuel s segmentDuration txt
     = Some (Returns s (Server.writePlaylist formatSeconds window txt))
     /\ Z.of_nat (length window)
        <= Z.max 3 (Z.quot (10 * GoTime.Second) segmentDuration)
     /\ Forall (fun segment =>
                  Storage.lastSegmentID s
                  - Z.max 3 (Z.quot (10 * GoTime.Second) segmentDuration) + 1
                  <= Storage.ID segment <= Storage.lastSegmentID s) window)
  /\ (forall configDir r,
        Recorder.New configDir = Ok r ->
        Recorder.SegmentDuration r <> 0
        /\ Z.max 3 (Z.quot (10 * GoTime.Second) (Recorder.SegmentDuration r)) = 3).
Proof.
  intros Hm Hk Hd Hfuel. split.
  - set (n := Z.max 3 (Z.quot (10 * GoTime.Second) segmentDuration)) in *.
    destruct (LatestSegments_window fuel s n Hm Hk ltac:(lia) Hfuel)
      as (window & Hret & Hlen & Hids).
    exists window. split; [|done].
    unfold Server.serveLivePlaylist.
    destruct (Z.eqb_spec segmentDuration 0) as [?|_]; [done|].
    assert ((if Z.quot (10 * GoTime.Second) segmentDuration <? 3 then 3
             else Z.quot (10 * GoTime.Second) segmentDuration) = n) as ->.
    { subst n. destruct (Z.ltb_spec (Z.quot (10 * GoTime.Second) segmentDuration) 3);
        lia. }
    by rewrite Hret.
  - intros configDir r. unfold Recorder.New.
    destruct configDir as [dir|e]; [|done]. intros [= <-]. by vm_compute.
Qed.

Lemma playlist_window_is_bounded_witness :
  let s := storeOf (seqZ 2 9) 10 in
  exists window,
    Server.serveLivePlaylist sixDecimals 3 s (5 * GoTime.Second) false
    = Some (Returns s (Server.writePlaylist sixDecimals window false))
    /\ Z.of_nat (length window)
       <= Z.max 3 (Z.quot (10 * GoTime.Second) (5 * GoTime.Second))
    /\ Forall (fun segment =>
                 Storage.lastSegmentID s
                 - Z.max 3 (Z.quot (10 * GoTime.Second) (5 * GoTime.Second)) + 1
                 <= Storage.ID segment <= Storage.lastSegmentID s) window.
Proof.
  intros s.
  refine (proj1 (playlist_window_is_bounded sixDecimals 3 s (5 * GoTime.Second)
                   false eq_refl _ _ _)).
  - apply keyed_by_map_Forall. apply (bool_decide_unpack _). vm_compute. exact I.
  - vm_compute. discriminate.
  - vm_compute. lia.
Defined.

(** * More on segment file names *)

(** X18.  The parser looks at the part of a name before its first dot
    only: whatever follows a stem without a dot, the segment parsed is the
    one parsed from the stem alone, the name apart; so a file
    [segment_1_2_3.ts.tmp] is indexed like [segment_1_2_3.ts]. *)
Theorem segmentFromFileName_ignores_extension (stem ext : string) :
  occurs "."%char stem = false ->
  Storage.segmentFromFileName (stem +:+ "." +:+ ext) =
  match Storage.segmentFromFileName stem with
  | Ok segment =>
      Ok {| Storage.ID := Storage.ID segment;
            Storage.Name := stem +:+ "." +:+ ext;
            Storage.Time := Storage.Time segment;
            Storage.Duration := Storage.Duration segment |}
  | Err e => Err e
  end.
Proof.
  intros Hdot. unfold Storage.segmentFromFileName.
  change (stem +:+ "." +:+ ext) with (stem +:+ String "."%char ext).
  rewrite (Split_sep "."%char stem ext Hdot), (Split_none "."%char stem Hdot).
  cbn [hd].
  destruct (negb _ || negb _); [done|].
  destruct (GoStrings.Atoi (nth 1 _ _)); [|done].
  destruct (GoStrings.Atoi (nth 2 _ _)); [|done].
  by destruct (GoStrings.Atoi (nth 3 _ _)).
Qed.

Lemma segmentFromFileName_ignores_extension_witness :
  Storage.segmentFromFileName ("segment_1540000000_5000_3" +:+ "." +:+ "ts.tmp") =
  match Storage.segmentFromFileName "segment_1540000000_5000_3" with
  | Ok segment =>
      Ok {| Storage.ID := Storage.ID segment;
            Storage.Name := "segment_1540000000_5000_3" +:+ "." +:+ "ts.tmp";
            Storage.Time := Storage.Time segment;
            Storage.Duration := Storage.Duration segment |}
  | Err e => Err e
  end.
Proof.
  apply (segmentFromFileName_ignores_extension "segment_1540000000_5000_3" "ts.tmp").
  reflexivity.
Defined.

(** * What a failure cannot do *)

Section SafetyFacts.
Import GoStrings Recorder.

(** The files that one round of the loop of [checkFiles] can remove are
    the raw chunk and its converted file, however the round ends. *)
Lemma drain_round_keeps env r name w w' res path :
  (filePath <- muxFile env name ;;
   forEach (subscribers r) (fun subscriber =>
     emit (EvVideoRecorded subscriber filePath (now env filePath)
             (GoTime.Add (now env filePath) (segmentDuration r)))) ;;;
   Remove env filePath)%rec w = (w', res) ->
  path ∈ files w ->
  path <> pathJoin (recorderDir (rec w)) name ->
  path <> pathJoin (recorderDir (rec w)) (convertedName name) ->
  path ∈ files w'.
Proof.
  unfold muxFile, bind, getRecorder, ffmpeg, ret. fold (convertedName name).
  set (inPath := pathJoin (recorderDir (rec w)) name).
  set (outPath := pathJoin (recorderDir (rec w)) (convertedName name)).
  intros H Hin Hne1 Hne2.
  destruct (decide (inPath ∈ files w)); [|by injection H as <- _].
  destruct (ffmpegErr env inPath); [by injection H as <- _|].
  unfold Remove at 1 in H. cbn [files rec trace] in H.
  destruct (decide (inPath ∈ files w ∪ {[outPath]}));
    [|injection H as <- _; cbn; set_solver].
  destruct (removeErr env inPath); [injection H as <- _; cbn; set_solver|].
  rewrite notify_subscribers in H. cbn [files rec trace] in H.
  unfold Remove in H. cbn [files rec trace] in H.
  destruct (decide (outPath ∈ (files w ∪ {[outPath]}) ∖ {[inPath]}));
    [|injection H as <- _; cbn; set_solver].
  destruct (removeErr env outPath); injection H as <- _; cbn; set_solver.
Qed.

Lemma drain_round_rec env r name w w' res :
  (filePath <- muxFile env name ;;
   forEach (subscribers r) (fun subscriber =>
     emit (EvVideoRecorded subscriber filePath (now env filePath)
             (GoTime.Add (now env filePath) (segmentDuration r)))) ;;;
   Remove env filePath)%rec w = (w', res) ->
  rec w' = rec w.
Proof.
  unfold muxFile, bind, getRecorder, ffmpeg, ret.
  intros H.
  destruct (decide _); [|by injection H as <- _].
  destruct (ffmpegErr env _); [by injection H as <- _|].
  unfold Remove at 1 in H. cbn [files rec trace] in H.
  destruct (decide _); [|by injection H as <- _].
  destruct (removeErr env _); [by injection H as <- _|].
  rewrite notify_subscribers in H. cbn [files rec trace] in H.
  unfold Remove in H. cbn [files rec trace] in H.
  destruct (decide _); [|by injection H as <- _].
  destruct (removeErr env _); by injection H as <- _.
Qed.

(** The loop of [checkFiles], however it ends. *)
Lemma drain_loop_keeps env r chunks path : forall w w' res,
  rec w = r ->
  forEach chunks (fun name =>
    filePath <- muxFile env name ;;
    forEach (subscribers r) (fun subscriber =>
      emit (EvVideoRecorded subscriber filePath (now env filePath)
              (GoTime.Add (now env filePath) (segmentDuration r)))) ;;;
    Remove env filePath)%rec w = (w', res) ->
  path ∈ files w ->
  path ∉ removedBy r chunks ->
  path ∈ files w'.
Proof.
  induction chunks as [|c chunks IH]; intros w w' res Hr.
  - by intros [= <- _].
  - cbn [forEach]. unfold bind at 1. cbv beta.
    destruct ((filePath <- muxFile env c ;;
               forEach (subscribers r) (fun subscriber =>
                 emit (EvVideoRecorded subscriber filePath (now env filePath)
                         (GoTime.Add (now env filePath) (segmentDuration r)))) ;;;
               Remove env filePath)%rec w) as [w1 [[]|e]] eqn:E.
    + intros H Hin Hout.
      assert (path ∈ files w1) as Hin1.
      { eapply drain_round_keeps; [exact E | done | |]; rewrite Hr;
          intros ->; apply Hout; unfold removedBy;
          rewrite !fmap_cons; cbn [list_to_set foldr]; set_solver. }
      eapply IH; [|exact H|done|].
      * rewrite <- Hr. by eapply drain_round_rec.
      * intros Hp. apply Hout. unfold removedBy in *.
        rewrite !fmap_cons. cbn [list_to_set foldr]. set_solver.
    + intros [= <- _] Hin Hout.
      eapply drain_round_keeps; [exact E | done | |]; rewrite Hr;
        intros ->; apply Hout; unfold removedBy;
        rewrite !fmap_cons; cbn [list_to_set foldr]; set_solver.
Qed.

End SafetyFacts.

(** X19.  However a drain pass ends, with or without an error, the only
    files it can have removed are the raw chunks other than the last of the
    listing and their converted files: every other file that was there is
    still there.  In particular the last raw chunk, the one being written,
    is still there when no converted file bears its name. *)
Theorem checkFiles_touches_only_finished_chunks
    (env : Recorder.osEnv) (w w' : Recorder.world) (listing : list string)
    (res : result unit) :
  Recorder.ReadDir env (Recorder.recorderDir (Recorder.rec w)) w = (w, Ok listing) ->
  Recorder.checkFiles env w = (w', res) ->
  (forall path,
     path ∈ Recorder.files w ->
     path ∉ removedBy (Recorder.rec w) (Recorder.allButLast (rawChunks listing)) ->
     path ∈ Recorder.files w')
  /\ (forall newest,
        last (rawChunks listing) = Some newest ->
        Forall (fun c => convertedName c <> newest)
          (Recorder.allButLast (rawChunks listing)) ->
        Recorder.pathJoin (Recorder.recorderDir (Recorder.rec w)) newest
          ∈ Recorder.files w').
Proof.
  intros Hread Hrun.
  assert (forall path,
     path ∈ Recorder.files w ->
     path ∉ removedBy (Recorder.rec w) (Recorder.allButLast (rawChunks listing)) ->
     path ∈ Recorder.files w') as Hkeep.
  { rewrite (checkFiles_listing _ _ _ Hread) in Hrun.
    destruct (length (rawChunks listing) <? 2)%nat.
    - injection Hrun as <- _. done.
    - intros path Hin Hout. by eapply drain_loop_keeps. }
  split; [exact Hkeep|].
  intros newest Hlast Hconv.
  destruct (ReadDir_listing _ _ _ _ _ Hread) as (_ & _ & Hnd & Hin).
  assert (NoDup (rawChunks listing)) as Hrawnd by (by apply NoDup_filter).
  apply last_Some in Hlast as [l' E].
  assert (newest ∈ listing) as Hn.
  { assert (newest ∈ rawChunks listing) as H by (rewrite E; set_solver).
    by apply list_elem_of_filter in H as [_ H]. }
  apply Hkeep; [by apply Hin|].
  rewrite E in *. rewrite allButLast_snoc in *.
  apply NoDup_app in Hrawnd as (_ & Hdis & _).
  unfold removedBy. rewrite elem_of_union, !elem_of_list_to_set, !list_elem_of_fmap.
  intros [(c & Ec & Hc)|(c & Ec & Hc)]; apply pathJoin_inj in Ec.
  - subst c. apply (Hdis newest Hc). by left.
  - rewrite Forall_forall in Hconv. by apply (Hconv c Hc).
Qed.

Lemma checkFiles_touches_only_finished_chunks_witness :
  let w := worldOf [Recorder.chunkName 0; Recorder.chunkName 1;
                    Recorder.chunkName 2; Recorder.chunkName 3] in
  let dir := Recorder.recorderDir (Recorder.rec w) in
  let env := failingEnv (Recorder.pathJoin dir (Recorder.chunkName 1)) in
  let listing := [Recorder.chunkName 0; Recorder.chunkName 1;
                  Recorder.chunkName 2; Recorder.chunkName 3] in
  exists w' res,
    Recorder.checkFiles env w = (w', res)
    /\ (forall path,
          path ∈ Recorder.files w ->
          path ∉ removedBy (Recorder.rec w) (Recorder.allButLast (rawChunks listing)) ->
          path ∈ Recorder.files w')
    /\ (forall newest,
          last (rawChunks listing) = Some newest ->
          Forall (fun c => convertedName c <> newest)
            (Recorder.allButLast (rawChunks listing)) ->
          Recorder.pathJoin dir newest ∈ Recorder.files w').
Proof.
  intros w dir env listing.
  destruct (Recorder.checkFiles env w) as [w' res] eqn:E.
  exists w', res. split; [reflexivity|].
  apply (checkFiles_touches_only_finished_chunks env w w' listing res);
    [vm_compute; reflexivity | exact E].
Defined.

(** * Restart *)

Section RestartFacts.
Import Storage.

Lemma quot_Millisecond_bounds d :
  GoInt.minInt <= d <= GoInt.maxInt ->
  GoInt.minInt <= Z.quot d GoTime.Millisecond <= GoInt.maxInt
  /\ GoInt.minInt <= Z.quot d GoTime.Millisecond * GoTime.Millisecond <= GoInt.maxInt.
Proof.
  unfold GoInt.minInt, GoInt.maxInt, GoTime.Millisecond. intros H.
  pose proof (Z.quot_rem' d 1000000) as E.
  destruct (Z_le_gt_dec 0 d) as [Hd|Hd].
  - pose proof (Z.rem_bound_pos d 1000000 Hd ltac:(lia)).
    pose proof (Z.quot_pos d 1000000 Hd ltac:(lia)). lia.
  - assert (Z.quot d 1000000 = - Z.quot (- d) 1000000) as ->.
    { rewrite Z.quot_opp_l by lia. lia. }
    pose proof (Z.quot_rem' (- d) 1000000).
    pose proof (Z.rem_bound_pos (- d) 1000000 ltac:(lia) ltac:(lia)).
    pose proof (Z.quot_pos (- d) 1000000 ltac:(lia) ltac:(lia)). lia.
Qed.

(** The file of a segment named by the convention parses to what the
    name keeps of the segment. *)
Lemma canonical_reloads s id segment :
  canonical s ->
  segments s !! id = Some segment ->
  segmentFromFileName (Name segment) = Ok (reloaded segment).
Proof.
  intros Hc Hs. destruct (Hc id segment Hs) as (Hid & Hn & Ht & Hi & Hd).
  apply inRange_true in Hd.
  destruct (quot_Millisecond_bounds _ Hd) as [Hq Hqm].
  rewrite Hn at 1. rewrite segmentFromFileName_segmentName, Ht, Hi.
  apply inRange_true in Hq. rewrite Hq. cbn [andb].
  unfold reloaded. rewrite wrap64_id by done. by rewrite <- Hn, Hid.
Qed.

Lemma last_all_equal {A} (l : list A) (x : A) :
  l <> [] -> (forall y, y ∈ l -> y = x) -> last l = Some x.
Proof.
  intros Hne Hall. destruct (last l) as [y|] eqn:E.
  - f_equal. apply Hall. by apply last_Some_elem_of.
  - by apply last_None in E.
Qed.

End RestartFacts.

(** X20.  A restart recovers the index from the names of the files.  When
    the segments of a store are named as [addSegment] names them and the
    segment directory holds exactly their files, the store constructed
    over that directory has the same ids in its index, each with the same
    name, the time cut to whole seconds and the duration cut to whole
    milliseconds. *)
Theorem restart_recovers_index
    (s restarted : Storage.storageImpl) (dir : string) (files : list string)
    (id : Z) :
  canonical s ->
  list_to_set files = segmentFiles s ->
  Storage.New (Ok dir) (Ok files) = Ok restarted ->
  Storage.segments restarted !! id = reloaded <$> Storage.segments s !! id.
Proof.
  intros Hc Hfiles Hnew. rewrite (New_lookup_last _ _ _ id Hnew).
  assert (forall y,
    y ∈ filter (fun segment => Storage.ID segment = id) (parsedSegments files) ->
    exists segment, Storage.segments s !! id = Some segment /\ y = reloaded segment)
    as Hfrom.
  { intros y [Hy (name & Hname & Hparse)%list_elem_of_omap]%list_elem_of_filter.
    assert (name ∈ segmentFiles s) as Hin
      by (rewrite <- Hfiles; by apply elem_of_list_to_set).
    apply elem_of_map_to_set in Hin as (i & seg & Hseg & <-).
    rewrite (canonical_reloads _ _ _ Hc Hseg) in Hparse.
    injection Hparse as <-. exists seg. split; [|done].
    destruct (Hc i seg Hseg) as (Hi & _). cbn in Hy. by rewrite <- Hy, Hi. }
  destruct (Storage.segments s !! id) as [segment|] eqn:Hs; cbn [fmap option_fmap option_map].
  - apply last_all_equal.
    + assert (reloaded segment
              ∈ filter (fun sg => Storage.ID sg = id) (parsedSegments files)) as Hin.
      { apply list_elem_of_filter. split.
        - by destruct (Hc id segment Hs) as (Hi & _).
        - apply list_elem_of_omap. exists (Storage.Name segment). split.
          + apply (elem_of_list_to_set (C := gset string)). rewrite Hfiles.
            apply elem_of_map_to_set. by exists id, segment.
          + by rewrite (canonical_reloads _ _ _ Hc Hs). }
      intros E. rewrite E in Hin. by apply elem_of_nil in Hin.
    + intros y (seg & Hseg & ->)%Hfrom. congruence.
  - destruct (last _) as [y|] eqn:E; [|done].
    apply last_Some_elem_of, Hfrom in E as (seg & Hseg & _). done.
Qed.

Lemma canonical_by_map_Forall s :
  map_Forall (fun id segment =>
    Storage.ID segment = id
    /\ Storage.Name segment
       = Storage.segmentName (GoTime.unixSec (Storage.Time segment))
           (Z.quot (Storage.Duration segment) GoTime.Millisecond) id
    /\ GoInt.inRange (GoTime.unixSec (Storage.Time segment)) = true
    /\ GoInt.inRange id = true
    /\ GoInt.inRange (Storage.Duration segment) = true) (Storage.segments s) ->
  canonical s.
Proof. intros H id seg E. exact (H id seg E). Qed.

Lemma restart_recovers_index_witness :
  let s := indexed (storeOf [2] 2)
             (GoTime.mkTime 1540000100 250000000)
             (GoTime.mkTime 1540000105 250000999) in
  let files := ["segment_1540000010_5000_2.ts"; "segment_1540000100_5000_3.ts"] in
  exists restarted,
    Storage.New (Ok "/home/pi/.pi-camera-go/segments") (Ok files) = Ok restarted
    /\ Storage.segments restarted !! 3 = reloaded <$> Storage.segments s !! 3.
Proof.
  intros s files.
  destruct (Storage.New (Ok "/home/pi/.pi-camera-go/segments") (Ok files))
    as [restarted|e] eqn:E; [|vm_compute in E; discriminate].
  exists restarted. split; [reflexivity|].
  apply (restart_recovers_index s restarted "/home/pi/.pi-camera-go/segments" files 3).
  - apply canonical_by_map_Forall. apply (bool_decide_unpack _). vm_compute. exact I.
  - apply (bool_decide_unpack _). vm_compute. exact I.
  - exact E.
Defined.
